(** * i18n-ally: locale nodes, keypaths and the DeepL glossary cache

    A shallow embedding of the locale data model ([LocaleRecord],
    [LocaleNode], [Coverage], [PendingWrite]) and of the DeepL glossary
    client ([DeeplGlossaries]), with the properties of the locale tree
    engine stated over them.

    JavaScript objects used as dictionaries are finite maps ([gmap]) with
    string keys, optional fields are [option]s, [Date.now()] readings and
    HTTP status codes are integers ([Z]). *)

From Stdlib Require Import ZArith Ascii.
From stdpp Require Import base option list strings gmap fin_maps.

(** ** JavaScript truthiness, as far as the code relies on it *)

Module Js.

(** A string is falsy exactly when it is empty. *)
Definition truthy_string (s : string) : bool :=
  match s with
  | EmptyString => false
  | String _ _ => true
  end.

(** A number is falsy exactly when it is zero (no NaN arises here: the
    numbers are [Date.now()] readings and the literal [0]). *)
Definition truthy_number (z : Z) : bool := negb (Z.eqb z 0).

(** [x || y] where [x] is a string or [undefined] and [y] a string. *)
Definition or_string (x : option string) (y : string) : string :=
  match x with
  | Some s => if truthy_string s then s else y
  | None => y
  end.

(** A parameter with a default value: [undefined] (or an omitted argument)
    takes the default. *)
Definition param {A} (dflt : A) (arg : option A) : A :=
  match arg with
  | Some a => a
  | None => dflt
  end.

End Js.

(** ** The locale data model

    The interfaces and the class of the types file. The constant [type]
    tags (['record'], ['node']) carry no information and are left out;
    fields of several interfaces that share a name get a prefix. *)

Record LocaleRecord := {
  rec_keypath : string;
  rec_keyname : string;
  rec_value : string;
  rec_locale : string;
  rec_filepath : option string;
  rec_shadow : option bool
}.

(** [shadow?: boolean]: an absent flag reads as falsy. *)
Definition is_shadow (r : LocaleRecord) : bool :=
  Js.param false (rec_shadow r).

Record LocaleNode := {
  keypath : string;
  locales : gmap string LocaleRecord;
  shadow : bool;
  keyname : string
}.

(** [value: object], the raw content of a file: strings at the leaves of
    nested objects. *)
Inductive RawValue :=
| RawString (s : string)
| RawObject (fields : list RawField)
with RawField :=
| Field (name : string) (content : RawValue).

Record ParsedFile := {
  pf_filepath : string;
  pf_locale : string;
  pf_value : RawValue;
  pf_nested : bool;
  pf_flatten : gmap string string
}.

Record Coverage := {
  cov_locale : string;
  cov_keys : list string;
  cov_translated : Z;
  cov_total : Z
}.

Record PendingWrite := {
  pw_locale : string;
  pw_keypath : string;
  pw_filepath : option string;
  pw_value : string
}.

(** Modelled from the spec: the event kinds [added] and [removed] of the
    Change Detector. The source declares ['changed'] only; the variants
    for a keypath that appears or disappears are the design document's. *)
Inductive LocaleLoaderEventType :=
| changed
| added
| removed.

Module Node.
Section WithKeyname.

(** [getKeyname] is imported from [./utils], which is not among the
    source files; the constructor only stores its result. *)
Variable getKeyname : string -> string.

(** [constructor (keypath, locales = {}, shadow = false)] *)
Definition new (kp : string) (ls : option (gmap string LocaleRecord))
    (sh : option bool) : LocaleNode :=
  {| keypath := kp;
     locales := Js.param ∅ ls;
     shadow := Js.param false sh;
     keyname := getKeyname kp |}.

End WithKeyname.

(** [this.locales[locale] && this.locales[locale].value]: [undefined]
    when the locale has no record, the record's value otherwise. *)
Definition record_value (n : LocaleNode) (locale : string) : option string :=
  match locales n !! locale with
  | Some r => Some (rec_value r)
  | None => None
  end.

(** [getValue (locale, fallback = '')] *)
Definition getValue (n : LocaleNode) (locale : string)
    (fallback : option string) : string :=
  Js.or_string (record_value n locale) (Js.param "" fallback).

(** [get value ()], with the display language passed in. *)
Definition value (displayLanguage : string) (n : LocaleNode) : string :=
  getValue n displayLanguage None.

End Node.

(** ** The DeepL glossary client (translators/engines/deepl.ts)

    The class keeps one static cache shared by all instances, reads the
    clock with [Date.now()] and talks to the DeepL servers through an axios
    instance. Here the cache lives in an explicit [World], next to the list
    of requests sent so far; the clock and the servers are an environment
    that answers the k-th effect of a run. Awaited promises are run in
    sequence. *)

Module Deepl.

Record DeeplGlossaryInfo := {
  glossary_id : string;
  name : string;
  ready : bool;
  source_lang : string;
  target_lang : string;
  creation_time : string;
  entry_count : Z
}.

Record GlossaryInfoCache := {
  lastUpdate : option Z;
  glossaries : option (list DeeplGlossaryInfo)
}.

(** The fields of [TranslateOptions] (declared in [./base]) that the
    glossary code reads. *)
Record TranslateOptions := {
  text : string;
  from : option string;
  to : option string
}.

(** [GlossaryIdentifyingPartial | {}] *)
Inductive GlossaryIdentifier :=
| GlossaryIdentifyingPartial (id : string)
| EmptyObject.

(** The three requests the glossary code sends. *)
Inductive Request :=
| ListGlossaries
| DeleteGlossary (id : string)
| CreateGlossary (glossary_name src tgt entries : string).

(** The [data] of a response: absent, or an object whose [glossaries],
    [message] and [detail] fields may be missing. *)
Inductive Body :=
| NoBody
| JsonBody (gl : option (list DeeplGlossaryInfo)) (message detail : option string).

(** axios either rejects or resolves with a status and a body. *)
Inductive Response :=
| Rejected (reason : string)
| Resolved (status : Z) (data : Body).

(** What can be thrown: the rejection of a request, the [TypeError] of
    reading a field of [undefined], and the errors the code raises
    itself. *)
Inductive Error :=
| RequestFailed (reason : string)
| TypeError
| CanNotReadGlossaries
| EmptyContent (src tgt : string)
| DeleteRefused (id : string) (status : Z)
| CreateRefused (src tgt : string) (status : Z).

(** What [log] is given: requests and responses by the interceptors,
    caught errors and messages by the glossary code. *)
Inductive LogEntry :=
| LogRequest (r : Request)
| LogResponse (status : Z)
| LogError (context : string) (err : Error)
| LogText (msg : string).

(** What the code reads but does not own: two settings of [Config], the
    clock and the servers. The k-th effect of a run (a clock reading or a
    request) gets the answer for index k, so that any sequence of readings
    and responses is an environment. *)
Record Env := {
  deeplGlossariesDir : option string;
  deeplLog : bool;
  date_now : nat -> Z;
  server : nat -> Request -> Response
}.

(** What the code changes: the static cache, and as a record of the run
    the number of effects so far, the requests sent and the log. *)
Record World := {
  cache : GlossaryInfoCache;
  tick : nat;
  sent : list Request;
  logged : list LogEntry
}.

(** Computations that read the environment, update the world and either
    throw or return. *)
Definition M (A : Type) : Type := Env -> World -> World * (Error + A).

#[global] Instance M_ret : MRet M := fun A a _ w => (w, inr a).

#[global] Instance M_bind : MBind M := fun A B f m e w =>
  match m e w with
  | (w', inr a) => f a e w'
  | (w', inl err) => (w', inl err)
  end.

(** [throw err] *)
Definition throw {A} (err : Error) : M A := fun _ w => (w, inl err).

(** [try { body } catch (err) { handler }] *)
Definition try_catch {A} (body : M A) (handler : Error -> M A) : M A :=
  fun e w =>
    match body e w with
    | (w', inl err) => handler err e w'
    | (w', inr a) => (w', inr a)
    end.

(** [try { body } finally { finalizer }]: the finalizer runs after the
    body whether it returned or threw, and the outcome of the body stands
    unless the finalizer throws. *)
Definition try_finally {A} (body : M A) (finalizer : M unit) : M A :=
  fun e w =>
    match body e w with
    | (w', r) =>
        match finalizer e w' with
        | (w'', inl err) => (w'', inl err)
        | (w'', inr _) => (w'', r)
        end
    end.

Definition getConfig {A} (field : Env -> A) : M A := fun e w => (w, inr (field e)).

Definition getCache : M GlossaryInfoCache := fun _ w => (w, inr (cache w)).

Definition setCache (c : GlossaryInfoCache) : M unit := fun _ w =>
  ({| cache := c; tick := tick w; sent := sent w; logged := logged w |}, inr tt).

(** [Date.now()] *)
Definition Date_now : M Z := fun e w =>
  ({| cache := cache w; tick := S (tick w); sent := sent w; logged := logged w |},
   inr (date_now e (tick w))).

(** [log(inspector, ...args)]: prints only when [Config.deeplLog] is set. *)
Definition log (entry : LogEntry) : M unit := fun e w =>
  if deeplLog e
  then ({| cache := cache w; tick := tick w; sent := sent w;
           logged := logged w ++ [entry] |}, inr tt)
  else (w, inr tt).

(** The request leaves for the servers, which answer it. *)
Definition send (r : Request) : M Response := fun e w =>
  ({| cache := cache w; tick := S (tick w); sent := sent w ++ [r]; logged := logged w |},
   inr (server e (tick w) r)).

(** [deepl({...})]: the request interceptor logs the request, the request
    is sent, and the response interceptor logs a fulfilled response. The
    base URL and the headers the interceptor sets are not modelled. *)
Definition deepl (r : Request) : M (Z * Body) :=
  _ ← log (LogRequest r);
  resp ← send r;
  match resp with
  | Rejected reason => throw (RequestFailed reason)
  | Resolved status data => _ ← log (LogResponse status); mret (status, data)
  end.

Definition GLOSSARY_CACHE_TTL : Z := 60 * 1000.

(** [isEnabled] *)
Definition isEnabled : M bool :=
  dir ← getConfig deeplGlossariesDir;
  mret (match dir with Some d => Js.truthy_string d | None => false end).

(** [isCached]: [Date.now()] is read only when [lastUpdate] is truthy. *)
Definition isCached : M bool :=
  c ← getCache;
  match lastUpdate c with
  | Some t =>
      if Js.truthy_number t
      then now ← Date_now; mret (Z.ltb (now - t) GLOSSARY_CACHE_TTL)
      else mret false
  | None => mret false
  end.

(** [invalidateCache] *)
Definition invalidateCache : M unit :=
  c ← getCache;
  _ ← setCache {| lastUpdate := Some 0%Z; glossaries := glossaries c |};
  c ← getCache;
  setCache {| lastUpdate := lastUpdate c; glossaries := Some [] |}.

(** The body both variants of [readGlossaryList] share after the cache
    test: ask the servers, store a truthy [glossaries] field with the time
    of arrival, and fail on anything else. *)
Definition fetchGlossaryList : M (option (list DeeplGlossaryInfo)) :=
  try_catch
    ('(_, data) ← deepl ListGlossaries;
     match data with
     | NoBody => throw TypeError
     | JsonBody (Some gl) _ _ =>
         now ← Date_now;
         c ← getCache;
         _ ← setCache {| lastUpdate := Some now; glossaries := glossaries c |};
         c ← getCache;
         _ ← setCache {| lastUpdate := lastUpdate c; glossaries := Some gl |};
         mret (Some gl)
     | JsonBody None _ _ => throw CanNotReadGlossaries
     end)
    (fun err => _ ← log (LogError "" err); throw err).

(** [readGlossaryList (forceUpdate = false)]. When the cache answers, the
    result is the value of [cache.glossaries], which the source only
    asserts to be defined. *)
Definition readGlossaryList (forceUpdate : option bool)
    : M (option (list DeeplGlossaryInfo)) :=
  cached ← isCached;
  if cached && negb (Js.param false forceUpdate)
  then c ← getCache; mret (glossaries c)
  else fetchGlossaryList.

(** [readGlossaryList ()] of the engine file that has no [forceUpdate]
    parameter. *)
Definition readGlossaryList_plain : M (option (list DeeplGlossaryInfo)) :=
  cached ← isCached;
  if (cached : bool)
  then c ← getCache; mret (glossaries c)
  else fetchGlossaryList.

(** [source_lang === sourceLanguage && target_lang === targetLanguage] *)
Definition matches_pair (targetLanguage sourceLanguage : string)
    (g : DeeplGlossaryInfo) : bool :=
  String.eqb (source_lang g) sourceLanguage && String.eqb (target_lang g) targetLanguage.

(** [getGlossaryIds] *)
Definition getGlossaryIds (targetLanguage sourceLanguage : string) : M (list string) :=
  gls ← readGlossaryList None;
  match gls with
  | Some gl =>
      mret (map glossary_id
              (filter (fun g => matches_pair targetLanguage sourceLanguage g = true) gl))
  | None => throw TypeError
  end.

(** [getGlossaryId]: the first matching id, [undefined] when there is
    none. *)
Definition getGlossaryId (targetLanguage sourceLanguage : string) : M (option string) :=
  ids ← getGlossaryIds targetLanguage sourceLanguage;
  mret (match ids with
        | id :: _ => Some id
        | [] => None
        end).

(** [deleteGlossary] *)
Definition deleteGlossary (id : string) : M unit :=
  try_catch
    ('(status, data) ← deepl (DeleteGlossary id);
     if Z.eqb status 204
     then log (LogText ("Successfully deleted glossary " +:+ id))
     else
       match data with
       | NoBody => throw TypeError
       | JsonBody _ _ _ => throw (DeleteRefused id status)
       end)
    (fun err => _ ← log (LogError ("Couldn't delete glossary " +:+ id) err); throw err).

(** [createGlossary] *)
Definition createGlossary (targetLanguage sourceLanguage content : string) : M unit :=
  if negb (Js.truthy_string content) || Nat.eqb (String.length content) 0
  then throw (EmptyContent sourceLanguage targetLanguage)
  else
    try_catch
      ('(status, data) ← deepl (CreateGlossary (sourceLanguage +:+ "-" +:+ targetLanguage)
                                  sourceLanguage targetLanguage content);
       if negb (Z.eqb status 201)
       then
         match data with
         | NoBody => throw TypeError
         | JsonBody _ _ _ => throw (CreateRefused sourceLanguage targetLanguage status)
         end
       else mret tt)
      (fun err =>
         _ ← log (LogError ("Couldn't create glossary " +:+ sourceLanguage +:+ " => " +:+ targetLanguage) err);
         throw err).

(** [glossaries.forEach(async id => { await this.deleteGlossary(id) })]:
    [forEach] drops the promise of each callback, so every deletion is
    started and none of their failures reaches the caller. *)
Fixpoint forEach_detached {A} (xs : list A) (callback : A -> M unit) : M unit :=
  match xs with
  | [] => mret tt
  | x :: rest =>
      _ ← try_catch (callback x) (fun _ => mret tt);
      forEach_detached rest callback
  end.

(** [updateGlossary] *)
Definition updateGlossary (targetLanguage sourceLanguage content : string) : M unit :=
  try_finally
    (ids ← getGlossaryIds targetLanguage sourceLanguage;
     _ ← forEach_detached ids deleteGlossary;
     createGlossary targetLanguage sourceLanguage content)
    invalidateCache.

(** [static getTranslationRequestGlossaryIdentifier] *)
Definition getTranslationRequestGlossaryIdentifier (options : TranslateOptions)
    : M GlossaryIdentifier :=
  found ← try_catch
            (enabled ← isEnabled;
             match from options, to options with
             | Some f, Some t =>
                 if enabled && Js.truthy_string f && Js.truthy_string t
                 then
                   glossaryId ← getGlossaryId t f;
                   match glossaryId with
                   | Some id =>
                       if Js.truthy_string id
                       then mret (Some (GlossaryIdentifyingPartial id))
                       else mret None
                   | None => mret None
                   end
                 else mret None
             | _, _ => mret None
             end)
            (fun err =>
               _ ← log (LogError "Error reading glossary id for translation" err);
               mret None);
  match found with
  | Some partial => mret partial
  | None => mret EmptyObject
  end.

End Deepl.

(** ** KeyPath utilities

    The source of [split], [join] and [keyname] is not among the source
    files ([getKeyname] is only imported); the functions below follow the
    design document (4.1). *)

Module KeyPath.
Section Convention.

(** The separator (default [.]) and the character that escapes it. The
    design document asks for an escape convention without naming the
    character, so it stays a parameter. *)
Variable sep : ascii.
Variable esc : ascii.

(** Modelled from the spec: the characters a segment can only hold in
    escaped form (KeyPath Utilities, escape convention). *)
Definition special (c : ascii) : bool := Ascii.eqb c sep || Ascii.eqb c esc.

(** Modelled from the spec: the splitting of a keypath on unescaped
    separators (KeyPath Utilities, [split]). The result is the first
    segment and the segments after it, unescaped; [None] is the
    [KeypathFormatError] of a malformed escape sequence, which is an
    escape character followed by anything but the separator or the
    escape character. *)
Fixpoint split_from (k : string) : option (string * list string) :=
  match k with
  | EmptyString => Some (EmptyString, [])
  | String c rest =>
      if Ascii.eqb c esc then
        match rest with
        | String d rest' =>
            if special d
            then '(s, ss) ← split_from rest'; Some (String d s, ss)
            else None
        | EmptyString => None
        end
      else if Ascii.eqb c sep then
        '(s, ss) ← split_from rest; Some (EmptyString, s :: ss)
      else
        '(s, ss) ← split_from rest; Some (String c s, ss)
  end.

(** Modelled from the spec: [split(keypath) -> ordered list of segment]. *)
Definition split (k : string) : option (list string) :=
  '(s, ss) ← split_from k; Some (s :: ss).

(** Modelled from the spec: the escaping of a segment that contains the
    separator (or the escape character) itself. *)
Fixpoint escape (s : string) : string :=
  match s with
  | EmptyString => EmptyString
  | String c rest =>
      if special c
      then String esc (String c (escape rest))
      else String c (escape rest)
  end.

(** Modelled from the spec: [join(segments) -> keypath], the escaped
    segments with a separator between neighbours. *)
Fixpoint join (segments : list string) : string :=
  match segments with
  | [] => EmptyString
  | [s] => escape s
  | s :: rest => escape s +:+ String sep (join rest)
  end.

(** Modelled from the spec: [keyname(keypath) -> string], the last
    segment. *)
Definition keyname (k : string) : option string :=
  segments ← split k; Some (List.last segments EmptyString).

End Convention.

Definition default_separator : ascii := "."%char.
Definition default_escape : ascii := "\"%char.

(** Modelled from the spec: [getKeyname] of [./utils], the [keyname] of
    the design document with the default separator; a keypath that does
    not parse has no last segment to show. *)
Definition getKeyname (k : string) : string :=
  default EmptyString (keyname default_separator default_escape k).

End KeyPath.

(** ** Tree builder and merge resolver

    Neither is among the source files; both follow the design document
    (4.2 and 4.3). Only the flat index is built: the hierarchical tree
    holds the same nodes for presentation. *)

Module Builder.

(** Modelled from the spec: the warnings a build reports instead of
    throwing (error taxonomy of the design document). *)
Inductive Warning :=
| KeypathFormatError (k : string)
| MergeConflictWarning (locale k : string) (filepaths : list string)
| StructuralConflictWarning (k : string).

(** Modelled from the spec: [split] with the default separator. *)
Definition split_default : string -> option (list string) :=
  KeyPath.split KeyPath.default_separator KeyPath.default_escape.

(** Modelled from the spec: the files of one locale that define a keypath,
    in parse order, each with the value it gives (Merge & Conflict
    Resolver, input). *)
Definition candidates (files : list ParsedFile) (l k : string)
    : list (ParsedFile * string) :=
  omap (fun f =>
          if String.eqb (pf_locale f) l
          then v ← pf_flatten f !! k; Some (f, v)
          else None) files.

(** Modelled from the spec: the synthesized placeholder of a keypath that
    a locale lacks, with empty value and no file. *)
Definition shadow_record (l k : string) : LocaleRecord :=
  {| rec_keypath := k; rec_keyname := KeyPath.getKeyname k; rec_value := "";
     rec_locale := l; rec_filepath := None; rec_shadow := Some true |}.

(** Modelled from the spec: the record of a value that a file gives. *)
Definition real_record (l k : string) (f : ParsedFile) (v : string) : LocaleRecord :=
  {| rec_keypath := k; rec_keyname := KeyPath.getKeyname k; rec_value := v;
     rec_locale := l; rec_filepath := Some (pf_filepath f); rec_shadow := None |}.

(** Modelled from the spec: the record of one (locale, keypath) pair
    (Merge & Conflict Resolver). A [ParsedFile] carries neither scope nor
    timestamp, so the most recently parsed file wins: the last candidate. *)
Definition resolve (files : list ParsedFile) (l k : string) : LocaleRecord :=
  match last (candidates files l k) with
  | Some (f, v) => real_record l k f v
  | None => shadow_record l k
  end.

(** Modelled from the spec: the conflict note of a pair that several
    files define. *)
Definition conflict (files : list ParsedFile) (l k : string) : list Warning :=
  match candidates files l k with
  | _ :: _ :: _ as cs => [MergeConflictWarning l k (map (fun c => pf_filepath c.1) cs)]
  | _ => []
  end.

(** Modelled from the spec: the segments [p] are a strict prefix of the
    segments [l] (Tree Builder, edge cases). *)
Fixpoint strict_prefix (p l : list string) : bool :=
  match p, l with
  | [], _ :: _ => true
  | x :: p', y :: l' => String.eqb x y && strict_prefix p' l'
  | _, _ => false
  end.

(** Modelled from the spec: the union of the keypaths of all files (Tree
    Builder, first step). *)
Definition all_keypaths (files : list ParsedFile) : gset string :=
  ⋃ (map (fun f => dom (pf_flatten f)) files).

(** Modelled from the spec: the locales a node gets a record for, which
    are the locales of the files and the locales known without a file. *)
Definition all_locales (known : gset string) (files : list ParsedFile) : gset string :=
  known ∪ list_to_set (map pf_locale files).

(** Modelled from the spec: a keypath is shadowed by a deeper one when its
    segments are a strict prefix of the segments of another keypath (Tree
    Builder, edge cases). *)
Definition shadowed_by_deeper (keys : gset string) (segs : list string) : bool :=
  existsb (fun k' =>
             match split_default k' with
             | Some segs' => strict_prefix segs segs'
             | None => false
             end) (elements keys).

(** Modelled from the spec: the keypaths that get a node. A keypath with
    a malformed escape is skipped, a leaf under which deeper keys exist
    is dropped. *)
Definition kept (keys : gset string) (k : string) : bool :=
  match split_default k with
  | Some segs => negb (shadowed_by_deeper keys segs)
  | None => false
  end.

(** Modelled from the spec: the node of one keypath (Tree Builder, node
    construction): the constructor of the source, called with the keypath
    and one record for every locale. The design document gives no rule
    for the flag of a built node, so the constructor's third argument is
    left at its default. *)
Definition build_node (files : list ParsedFile) (ls : gset string) (k : string)
    : LocaleNode :=
  let records : gmap string LocaleRecord :=
    set_to_map (fun l => (l, resolve files l k)) ls in
  Node.new KeyPath.getKeyname k (Some records) None.

(** Modelled from the spec: [build(parsedFiles)], flat index. [known] is
    the set of locales the loader shows even when no file exists for
    them. *)
Definition build_flatten (known : gset string) (files : list ParsedFile)
    : gmap string LocaleNode :=
  let keys := all_keypaths files in
  set_to_map (fun k => (k, build_node files (all_locales known files) k))
             (filter (fun k => kept keys k = true) keys).

(** Modelled from the spec: the warnings of one build. *)
Definition build_warnings (known : gset string) (files : list ParsedFile)
    : list Warning :=
  let keys := all_keypaths files in
  flat_map (fun k =>
              match split_default k with
              | None => [KeypathFormatError k]
              | Some segs =>
                  if shadowed_by_deeper keys segs
                  then [StructuralConflictWarning k]
                  else flat_map (fun l => conflict files l k)
                                (elements (all_locales known files))
              end) (elements keys).

End Builder.

(** ** Coverage calculator

    Not among the source files, which only declare [Coverage]; it follows
    the design document (4.4). *)

Module CoverageCalc.

(** Modelled from the spec: trimming, as [String.prototype.trim] does
    it on the ASCII white space and line terminators (tab to carriage
    return, and the space). *)
Definition is_space (c : ascii) : bool :=
  let n := nat_of_ascii c in
  (Nat.leb 9 n && Nat.leb n 13) || Nat.eqb n 32.

Fixpoint trim_start (s : string) : string :=
  match s with
  | String c rest => if is_space c then trim_start rest else s
  | EmptyString => EmptyString
  end.

Fixpoint trim_end (s : string) : string :=
  match s with
  | String c rest =>
      match trim_end rest with
      | EmptyString => if is_space c then EmptyString else String c EmptyString
      | rest' => String c rest'
      end
  | EmptyString => EmptyString
  end.

Definition trim (s : string) : string := trim_end (trim_start s).

(** Modelled from the spec: the node carries a non-shadow record for the
    locale. *)
Definition carries (l : string) (n : LocaleNode) : bool :=
  match locales n !! l with
  | Some r => negb (is_shadow r)
  | None => false
  end.

(** Modelled from the spec: the value of the locale is a non-empty string
    after trimming. *)
Definition has_translation (l : string) (n : LocaleNode) : bool :=
  match locales n !! l with
  | Some r => Js.truthy_string (trim (rec_value r))
  | None => false
  end.

(** Modelled from the spec: the coverage record of one requested
    locale. *)
Definition coverage_of (flatten : gmap string LocaleNode) (l : string) : Coverage :=
  let entries := List.filter (fun kn => carries l kn.2) (map_to_list flatten) in
  {| cov_locale := l;
     cov_keys := map fst entries;
     cov_translated :=
       Z.of_nat (length (List.filter (fun kn => has_translation l kn.2) entries));
     cov_total := Z.of_nat (size flatten) |}.

(** Modelled from the spec: [computeCoverage(flatten, locales)]. *)
Definition computeCoverage (flatten : gmap string LocaleNode) (ls : gset string)
    : list Coverage :=
  map (coverage_of flatten) (elements ls).

End CoverageCalc.

(** ** Pending write queue

    Not among the source files, which only declare [PendingWrite]; it
    follows the design document (3 and 4.6). *)

Module PendingQueue.

(** Modelled from the spec: the (locale, keypath) pair that keys a queued
    write. *)
Definition key (w : PendingWrite) : string * string := (pw_locale w, pw_keypath w).

(** Modelled from the spec: [enqueue(write)], which replaces a queued
    entry of the same (locale, keypath). *)
Definition enqueue (w : PendingWrite) (q : gmap (string * string) PendingWrite)
    : gmap (string * string) PendingWrite :=
  <[key w := w]> q.

(** Modelled from the spec: a sequence of [enqueue] calls, in order. *)
Definition enqueue_all (ws : list PendingWrite) (q : gmap (string * string) PendingWrite)
    : gmap (string * string) PendingWrite :=
  foldl (fun q w => enqueue w q) q ws.

(** Modelled from the spec: [flush()], which hands every queued write to
    the persistence adapter, reports the outcome of each and leaves the
    queue empty. The adapter answers [None] for a write it committed and
    a reason for one it refused. *)
Definition flush (persist : PendingWrite -> option string)
    (q : gmap (string * string) PendingWrite)
    : list (PendingWrite * option string) * gmap (string * string) PendingWrite :=
  (map (fun kw => (kw.2, persist kw.2)) (map_to_list q), ∅).

(** Modelled from the spec: the writes of a flush report that the
    adapter committed. *)
Definition persisted (report : list (PendingWrite * option string)) : list PendingWrite :=
  map fst (List.filter (fun wr => match wr.2 with None => true | Some _ => false end) report).

End PendingQueue.

(** ** Change detector

    Not among the source files; it follows the design document (4.5). *)

Module ChangeDetector.

(** Modelled from the spec: an event, [(LocaleLoaderEventType, keypath,
    locale?)]. *)
Definition Event : Type := LocaleLoaderEventType * string * option string.

(** Modelled from the spec: what the detector compares of a locale in a
    node, the value and the shadow status of its record, if it has one. *)
Definition status (n : LocaleNode) (l : string) : option (string * bool) :=
  (fun r => (rec_value r, is_shadow r)) <$> locales n !! l.

(** Modelled from the spec: one ["changed"] event for every locale whose
    value or shadow status differs between the two nodes of a keypath. *)
Definition node_changes (k : string) (p n : LocaleNode) : list Event :=
  omap (fun l =>
          if decide (status p l = status n l)
          then None
          else Some (changed, k, Some l))
       (elements (dom (locales p) ∪ dom (locales n))).

(** Modelled from the spec: the events of one keypath. *)
Definition key_events (previous next : gmap string LocaleNode) (k : string)
    : list Event :=
  match previous !! k, next !! k with
  | None, Some _ => [(added, k, None)]
  | Some _, None => [(removed, k, None)]
  | Some p, Some n => node_changes k p n
  | None, None => []
  end.

(** Modelled from the spec: [diff(previous, next)], a walk over the
    keypaths of both indices. *)
Definition diff (previous next : gmap string LocaleNode) : list Event :=
  flat_map (key_events previous next) (elements (dom previous ∪ dom next)).

End ChangeDetector.

(** ** The DeepL translation engine (translators/engines/deepl.ts)

    [stripeLocaleCode], [transform] and [translate] of the engine file.
    The translation request is one more effect: it is recorded next to the
    world of the glossary client and answered by the environment. *)

Module Engine.

(** [locale.indexOf(c)], with [None] for [-1]. *)
Fixpoint indexOf (c : ascii) (s : string) : option nat :=
  match s with
  | EmptyString => None
  | String d rest =>
      if Ascii.eqb d c then Some 0
      else match indexOf c rest with
           | Some i => Some (S i)
           | None => None
           end
  end.

(** [locale.slice(0, index)] for an index within the string. *)
Fixpoint slice_to (index : nat) (s : string) : string :=
  match index, s with
  | S i, String c rest => String c (slice_to i rest)
  | _, _ => EmptyString
  end.

(** [stripeLocaleCode (locale?)] *)
Definition stripeLocaleCode (locale : option string) : option string :=
  match locale with
  | None => None
  | Some s =>
      if negb (Js.truthy_string s) then Some s
      else match indexOf "-" s with
           | None => Some s
           | Some index => Some (slice_to index s)
           end
  end.

Record DeepLTranslate := {
  detected_source_language : string;
  text : string
}.

(** The fields of [TranslateResult] (declared in [./base]) that
    [transform] sets or tests; [error] holds the message of the error. *)
Record TranslateResult := {
  tr_text : string;
  tr_to : string;
  tr_from : string;
  response : option (list DeepLTranslate);
  linkToResult : string;
  result : option (list string);
  detailed : option (list string);
  error : option string
}.

(** The [data] of a translation request. *)
Record TranslateData := {
  td_text : string;
  source_lang : option string;
  target_lang : option string;
  glossary : Deepl.GlossaryIdentifier
}.

(** The body of the answer: absent, or an object that may lack its
    [translations]. *)
Inductive TranslateBody :=
| NoTranslateBody
| Translations (translations : option (list DeepLTranslate)).

Inductive TranslateResponse :=
| TRejected (reason : string)
| TResolved (status : Z) (data : TranslateBody).

Record Env := {
  glossary_env : Deepl.Env;
  translator : nat -> TranslateData -> TranslateResponse
}.

Record World := {
  glossary_world : Deepl.World;
  posted : list TranslateData
}.

Definition E (A : Type) : Type := Env -> World -> World * (Deepl.Error + A).

#[global] Instance E_ret : MRet E := fun A a _ w => (w, inr a).

#[global] Instance E_bind : MBind E := fun A B f m e w =>
  match m e w with
  | (w', inr a) => f a e w'
  | (w', inl err) => (w', inl err)
  end.

Definition throw {A} (err : Deepl.Error) : E A := fun _ w => (w, inl err).

Definition try_catch {A} (body : E A) (handler : Deepl.Error -> E A) : E A :=
  fun e w =>
    match body e w with
    | (w', inl err) => handler err e w'
    | (w', inr a) => (w', inr a)
    end.

(** A computation of the glossary client, run on its part of the world. *)
Definition lift {A} (m : Deepl.M A) : E A := fun e w =>
  match m (glossary_env e) (glossary_world w) with
  | (gw, r) => ({| glossary_world := gw; posted := posted w |}, r)
  end.

(** The translation request leaves for the servers, which answer it; it
    counts as an effect of the run like the requests of the glossary
    client. *)
Definition send (d : TranslateData) : E TranslateResponse := fun e w =>
  let gw := glossary_world w in
  ({| glossary_world :=
        {| Deepl.cache := Deepl.cache gw; Deepl.tick := S (Deepl.tick gw);
           Deepl.sent := Deepl.sent gw; Deepl.logged := Deepl.logged gw |};
      posted := posted w ++ [d] |},
   inr (translator e (Deepl.tick gw) d)).

(** [deepl({ method: 'POST', url: '/translate', data })] with its two
    logging interceptors. *)
Definition post (d : TranslateData) : E TranslateBody :=
  _ ← lift (Deepl.log (Deepl.LogText "POST /translate"));
  resp ← send d;
  match resp with
  | TRejected reason => throw (Deepl.RequestFailed reason)
  | TResolved status data =>
      _ ← lift (Deepl.log (Deepl.LogResponse status)); mret data
  end.

(** [transform (res, options)]: [res.forEach] throws on an absent list,
    inside a [try] that swallows the error and leaves [result] unset. The
    text of the log message is not modelled. *)
Definition transform (res : option (list DeepLTranslate))
    (options : Deepl.TranslateOptions) : E TranslateResult :=
  let collected : option (list string) :=
    match res with
    | Some translations => Some (map text translations)
    | None => None
    end in
  let no_detail : option (list string) := None in
  let r :=
    {| tr_text := Deepl.text options;
       tr_to := Js.or_string (Deepl.to options) "auto";
       tr_from := Js.or_string (Deepl.from options) "auto";
       response := res;
       linkToResult := "";
       result := collected;
       detailed := no_detail;
       error :=
         match no_detail, collected with
         | None, None => Some "No result"
         | _, _ => None
         end |} in
  _ ← lift (Deepl.log (Deepl.LogText "DEEPL TRANSLATE!!"));
  mret r.

(** [translate (options)] *)
Definition translate (options : Deepl.TranslateOptions) : E TranslateResult :=
  try_catch
    (let source := stripeLocaleCode
                     (match Deepl.from options with
                      | Some f => if Js.truthy_string f then Some f else None
                      | None => None
                      end) in
     let target := stripeLocaleCode (Deepl.to options) in
     identifier ← lift (Deepl.getTranslationRequestGlossaryIdentifier options);
     res ← post {| td_text := Deepl.text options; source_lang := source;
                   target_lang := target; glossary := identifier |};
     match res with
     | NoTranslateBody => throw Deepl.TypeError
     | Translations translations => transform translations options
     end)
    (fun err => _ ← lift (Deepl.log (Deepl.LogError "" err)); throw err).

End Engine.

(** ** The glossary commands (commands/deepl.ts)

    The commands run the glossary client and talk to the editor: they
    read the workspace and the file system, ask the user to pick a file,
    and show messages. What the file system and the user answer is part
    of the environment; every access to the file system, every pick
    offered and every message shown is recorded in the world.

    A string stands for the UTF-8 encoding of the JavaScript string, so a
    character of the Basic Multilingual Plane, which is one unit of the
    JavaScript string, is one to three bytes here. *)

Module Commands.

Record GlossaryFile := {
  path : string;
  sourceLanguage : string;
  targetLanguage : string;
  name : string
}.

(** [\w]: a letter, a digit or the underscore. *)
Definition is_word (c : ascii) : bool :=
  let n := nat_of_ascii c in
  (Nat.leb 48 n && Nat.leb n 57) || (Nat.leb 65 n && Nat.leb n 90)
  || Nat.eqb n 95 || (Nat.leb 97 n && Nat.leb n 122).

(** Exactly [n] word characters at the head of [s], and what follows. *)
Fixpoint words (n : nat) (s : string) : option (string * string) :=
  match n with
  | 0 => Some (EmptyString, s)
  | S n' =>
      match s with
      | String c rest =>
          if is_word c
          then '(m, rest') ← words n' rest; Some (String c m, rest')
          else None
      | EmptyString => None
      end
  end.

(** [\w{2,3}], greedy: three characters are tried before two. *)
Definition word_2_3 (s : string) : list (string * string) :=
  option_list (words 3 s) ++ option_list (words 2 s).

(** A continuation byte of a UTF-8 sequence. *)
Definition is_continuation (c : ascii) : bool :=
  let n := nat_of_ascii c in Nat.leb 128 n && Nat.leb n 191.

(** [.] at the head of [s], and what follows it. The expression matches
    one unit of the JavaScript string other than the line terminators
    (line feed, carriage return, U+2028 and U+2029). Here that unit is a
    sequence of one, two or three bytes. Half a surrogate pair cannot
    stand between a word character and [csv], where the expression has
    its dot, so a sequence of four bytes is no match. *)
Definition dot (s : string) : option string :=
  match s with
  | EmptyString => None
  | String b0 rest0 =>
      let n0 := nat_of_ascii b0 in
      if Nat.leb n0 127 then
        if Nat.eqb n0 10 || Nat.eqb n0 13 then None else Some rest0
      else if Nat.leb 192 n0 && Nat.leb n0 223 then
        match rest0 with
        | String b1 rest1 => if is_continuation b1 then Some rest1 else None
        | EmptyString => None
        end
      else if Nat.leb 224 n0 && Nat.leb n0 239 then
        match rest0 with
        | String b1 (String b2 rest2) =>
            if is_continuation b1 && is_continuation b2
               && negb (Nat.eqb n0 226 && Nat.eqb (nat_of_ascii b1) 128
                        && (Nat.eqb (nat_of_ascii b2) 168 || Nat.eqb (nat_of_ascii b2) 169))
            then Some rest2 else None
        | _ => None
        end
      else None
  end.

(** [csv] at the head of [s]. *)
Definition csv (s : string) : bool :=
  match s with
  | String c1 (String c2 (String c3 _)) =>
      Ascii.eqb c1 "c" && Ascii.eqb c2 "s" && Ascii.eqb c3 "v"
  | _ => false
  end.

(** [.csv] at the head of [s]. *)
Definition dot_csv (s : string) : bool :=
  match dot s with
  | Some rest => csv rest
  | None => false
  end.

(** [(\w{2,3}).csv] at the head of [s]: the first choice for the group
    after which [.csv] matches. *)
Definition target_csv (s : string) : option string :=
  head (omap (fun '(g, rest) => if dot_csv rest then Some g else None) (word_2_3 s)).

(** The whole expression at the head of [s]. *)
Definition match_here (s : string) : option (string * string) :=
  head (omap (fun '(g1, rest) =>
                match rest with
                | String c rest' =>
                    if Ascii.eqb c "-"
                    then g2 ← target_csv rest'; Some (g1, g2)
                    else None
                | EmptyString => None
                end) (word_2_3 s)).

(** [GLOSSARY_FILE_REGEX.exec(fileName)] for
    [/(\w{2,3})-(\w{2,3}).csv/]: the two groups of the leftmost match. *)
Fixpoint exec (fileName : string) : option (string * string) :=
  match match_here fileName with
  | Some groups => Some groups
  | None =>
      match fileName with
      | String _ rest => exec rest
      | EmptyString => None
      end
  end.

(** What a command can throw: an error of the glossary client, and the
    errors of the commands themselves and of the file system. *)
Inductive Error :=
| Glossary (err : Deepl.Error)
| NotConfigured
| NoWorkspace
| FileSystem (reason : string).

(** [window.showErrorMessage(error.message)] and
    [window.showInformationMessage(text)]; every value thrown here is an
    [Error], so the message shown is the message of the error. *)
Inductive Message :=
| ErrorMessage (err : Error)
| InformationMessage (info : string).

(** A line of the output channel; the list is printed with
    [JSON.stringify]. *)
Inductive OutputLine :=
| Line (line : string)
| GlossaryList (gl : option (list Deepl.DeeplGlossaryInfo)).

Record Env := {
  deepl_env : Deepl.Env;
  workspaceFolders : option (list string);
  join : string -> string -> string;
  readdirSync : string -> string + list string;
  readFileSync : string -> string + string;
  showQuickPick : list string -> option string
}.

(** What a command asks of the file system and of the user. *)
Inductive Access :=
| ListedDirectory (path : string)
| ReadFile (path : string)
| OfferedPick (items : list string).

Record World := {
  deepl_world : Deepl.World;
  messages : list Message;
  output : list OutputLine;
  accesses : list Access
}.

Definition C (A : Type) : Type := Env -> World -> World * (Error + A).

#[global] Instance C_ret : MRet C := fun A a _ w => (w, inr a).

#[global] Instance C_bind : MBind C := fun A B f m e w =>
  match m e w with
  | (w', inr a) => f a e w'
  | (w', inl err) => (w', inl err)
  end.

Definition throw {A} (err : Error) : C A := fun _ w => (w, inl err).

Definition try_catch {A} (body : C A) (handler : Error -> C A) : C A :=
  fun e w =>
    match body e w with
    | (w', inl err) => handler err e w'
    | (w', inr a) => (w', inr a)
    end.

Definition ask {A} (field : Env -> A) : C A := fun e w => (w, inr (field e)).

(** A computation of the glossary client, run on its part of the world. *)
Definition lift {A} (m : Deepl.M A) : C A := fun e w =>
  match m (deepl_env e) (deepl_world w) with
  | (dw, r) =>
      ({| deepl_world := dw; messages := messages w; output := output w;
          accesses := accesses w |},
       match r with
       | inl err => inl (Glossary err)
       | inr a => inr a
       end)
  end.

Definition show (m : Message) : C unit := fun _ w =>
  ({| deepl_world := deepl_world w; messages := messages w ++ [m];
      output := output w; accesses := accesses w |}, inr tt).

Definition appendLine (l : OutputLine) : C unit := fun _ w =>
  ({| deepl_world := deepl_world w; messages := messages w;
      output := output w ++ [l]; accesses := accesses w |}, inr tt).

Definition access (a : Access) : C unit := fun _ w =>
  ({| deepl_world := deepl_world w; messages := messages w;
      output := output w; accesses := accesses w ++ [a] |}, inr tt).

(** [readdirSync(path)] *)
Definition readdir (path : string) : C (list string) :=
  _ ← access (ListedDirectory path);
  listing ← ask (fun e => readdirSync e path);
  match listing with
  | inl reason => throw (FileSystem reason)
  | inr fileNames => mret fileNames
  end.

(** [readFileSync(path, 'utf-8')] *)
Definition readFile (path : string) : C string :=
  _ ← access (ReadFile path);
  content ← ask (fun e => readFileSync e path);
  match content with
  | inl reason => throw (FileSystem reason)
  | inr text => mret text
  end.

(** [await window.showQuickPick(items, { canPickMany: false })] *)
Definition quickPick (items : list string) : C (option string) :=
  _ ← access (OfferedPick items);
  ask (fun e => showQuickPick e items).

(** [checkEnabled] *)
Definition checkEnabled : C unit :=
  isEnabled ← lift Deepl.isEnabled;
  if negb isEnabled then throw NotConfigured else mret tt.

(** [getWorkspacePath]: without a first workspace folder the access
    throws, and the error is replaced. *)
Definition getWorkspacePath : C string :=
  folders ← ask workspaceFolders;
  match folders with
  | Some (first :: _) => mret first
  | _ => throw NoWorkspace
  end.

(** [getAvailableGlossaryFiles]; [path.join] throws a [TypeError] when
    the directory setting is [undefined]. *)
Definition getAvailableGlossaryFiles : C (list GlossaryFile) :=
  workspacePath ← getWorkspacePath;
  dir ← ask (fun e => Deepl.deeplGlossariesDir (deepl_env e));
  match dir with
  | None => throw (Glossary Deepl.TypeError)
  | Some dir =>
      glossaryPath ← ask (fun e => join e workspacePath dir);
      fileNames ← readdir glossaryPath;
      joined ← ask (fun e => join e glossaryPath);
      mret (omap (fun fileName =>
                    match exec fileName with
                    | Some (source, target) =>
                        Some {| path := joined fileName;
                                sourceLanguage := source;
                                targetLanguage := target;
                                name := fileName |}
                    | None => None
                    end) fileNames)
  end.

(** The double quote of the message. *)
Definition quote : string := String (ascii_of_nat 34) EmptyString.

(** [updateGlossaryFromFile] *)
Definition updateGlossaryFromFile (file : GlossaryFile) : C unit :=
  glossaryContent ← readFile (path file);
  _ ← lift (Deepl.updateGlossary (targetLanguage file) (sourceLanguage file)
              glossaryContent);
  show (InformationMessage
          ("Glossary " +:+ quote +:+ name file +:+ quote +:+ " updated successfully.")).

(** [for (const glossaryFile of files) { await body(glossaryFile) }] *)
Fixpoint for_of {A} (xs : list A) (body : A -> C unit) : C unit :=
  match xs with
  | [] => mret tt
  | x :: rest => _ ← body x; for_of rest body
  end.

(** [updateGlossaries] *)
Definition updateGlossaries : C unit :=
  try_catch
    (_ ← checkEnabled;
     availableGlossaryFiles ← getAvailableGlossaryFiles;
     for_of availableGlossaryFiles updateGlossaryFromFile)
    (fun error => show (ErrorMessage error)).

(** [updateGlossary] *)
Definition updateGlossary : C unit :=
  try_catch
    (_ ← checkEnabled;
     availableGlossaryFiles ← getAvailableGlossaryFiles;
     chosenFileName ← quickPick (map name availableGlossaryFiles);
     match chosenFileName with
     | Some chosen =>
         if negb (Js.truthy_string chosen) then mret tt
         else
           match List.find (fun f => String.eqb (name f) chosen) availableGlossaryFiles with
           | Some chosenFile => updateGlossaryFromFile chosenFile
           | None => mret tt
           end
     | None => mret tt
     end)
    (fun error => show (ErrorMessage error)).

(** The engine file the commands run with. The file at the import path
    declares [readGlossaryList()] without a parameter, and a call ignores
    the argument it is given; the other variant of the file declares
    [readGlossaryList(forceUpdate = false)]. *)
Inductive EngineFile :=
| without_forceUpdate
| with_forceUpdate.

(** [this.glossaries.readGlossaryList(forceUpdate)] *)
Definition readGlossaryList (engine : EngineFile) (forceUpdate : option bool)
    : Deepl.M (option (list Deepl.DeeplGlossaryInfo)) :=
  match engine with
  | without_forceUpdate => Deepl.readGlossaryList_plain
  | with_forceUpdate => Deepl.readGlossaryList forceUpdate
  end.

(** [listGlossaries]; the output channel is created and shown anew by
    every call, and only what is appended to it is recorded. *)
Definition listGlossaries (engine : EngineFile) : C unit :=
  try_catch
    (_ ← checkEnabled;
     _ ← appendLine (Line "Reading glossary list...");
     glossaries ← lift (readGlossaryList engine (Some true));
     appendLine (GlossaryList glossaries))
    (fun error => show (ErrorMessage error)).

End Commands.

(** ** The hover card (hover.ts)

    [formatValue], [getAvaliableCommands] and [createTable]. What they
    take from other modules (the loader, the configuration, the
    translations of the interface, the markdown and locale helpers, the
    encoding of command arguments) is a parameter. *)

Module Hover.

(** [\s] matches the units U+0009 to U+000D, U+0020, U+00A0, U+1680,
    U+2000 to U+200A, U+2028, U+2029, U+202F, U+205F, U+3000 and U+FEFF.
    A string stands for the UTF-8 encoding of the JavaScript string, so
    the first six are one byte and the others two or three bytes. *)
Definition is_space_byte (b0 : ascii) : bool :=
  let n0 := nat_of_ascii b0 in
  (Nat.leb 9 n0 && Nat.leb n0 13) || Nat.eqb n0 32.

(** U+00A0 is C2 A0. *)
Definition is_space_2 (b0 b1 : ascii) : bool :=
  Nat.eqb (nat_of_ascii b0) 194 && Nat.eqb (nat_of_ascii b1) 160.

(** U+1680 is E1 9A 80; U+2000 to U+200A are E2 80 80 to E2 80 8A;
    U+2028, U+2029 and U+202F are E2 80 A8, E2 80 A9 and E2 80 AF;
    U+205F is E2 81 9F; U+3000 is E3 80 80; U+FEFF is EF BB BF. *)
Definition is_space_3 (b0 b1 b2 : ascii) : bool :=
  let n0 := nat_of_ascii b0 in
  let n1 := nat_of_ascii b1 in
  let n2 := nat_of_ascii b2 in
  (Nat.eqb n0 225 && Nat.eqb n1 154 && Nat.eqb n2 128)
  || (Nat.eqb n0 226 && Nat.eqb n1 128
      && ((Nat.leb 128 n2 && Nat.leb n2 138)
          || Nat.eqb n2 168 || Nat.eqb n2 169 || Nat.eqb n2 175))
  || (Nat.eqb n0 226 && Nat.eqb n1 129 && Nat.eqb n2 159)
  || (Nat.eqb n0 227 && Nat.eqb n1 128 && Nat.eqb n2 128)
  || (Nat.eqb n0 239 && Nat.eqb n1 187 && Nat.eqb n2 191).

(** The number of bytes of the white space character at the head of
    [s]; [0] when [s] does not begin with one. *)
Definition ws_length (s : string) : nat :=
  match s with
  | String b0 rest0 =>
      if is_space_byte b0 then 1
      else
        match rest0 with
        | String b1 rest1 =>
            if is_space_2 b0 b1 then 2
            else
              match rest1 with
              | String b2 _ => if is_space_3 b0 b1 b2 then 3 else 0
              | EmptyString => 0
              end
        | EmptyString => 0
        end
  | EmptyString => 0
  end.

(** [text.replace(/[\s]+/g, ' ')]: every maximal run of white space
    characters becomes one space. [in_run] says that the character
    before was white space; [skip] counts the bytes that are left of the
    white space character being replaced. *)
Fixpoint collapse_go (in_run : bool) (skip : nat) (s : string) : string :=
  match s with
  | EmptyString => EmptyString
  | String c rest =>
      match skip with
      | S k => collapse_go in_run k rest
      | 0 =>
          match ws_length s with
          | 0 => String c (collapse_go false 0 rest)
          | S k =>
              if in_run then collapse_go true k rest
              else String " " (collapse_go true k rest)
          end
      end
  end.

Definition collapse (text : string) : string := collapse_go false 0 text.

(** [Array.prototype.join] on strings. *)
Fixpoint join_with (sep : string) (items : list string) : string :=
  match items with
  | [] => EmptyString
  | [item] => item
  | item :: rest => item +:+ sep +:+ join_with sep rest
  end.

Definition newline : string := String (ascii_of_nat 10) EmptyString.
Definition quote : string := String (ascii_of_nat 34) EmptyString.

(** The commands a button can run, and an entry of the command list: a
    button, or the string that keeps the place of a missing one. *)
Inductive Commands := open_in_editor | translate_key | edit_key | open_key.

Inductive Entry :=
| Button (text icon command : string)
| Placeholder (s : string).

Record CommandArgs := {
  arg_keypath : string;
  arg_locale : string;
  arg_keyIndex : option (option Z)
}.

Definition EmptyButton : string := "⠀⠀".

(** The properties every plain object inherits from [Object.prototype]. *)
Definition Object_prototype : list string :=
  ["constructor"; "__defineGetter__"; "__defineSetter__"; "hasOwnProperty";
   "__lookupGetter__"; "__lookupSetter__"; "isPrototypeOf"; "propertyIsEnumerable";
   "toString"; "valueOf"; "__proto__"; "toLocaleString"].

(** What [records[locale]] finds in the plain object [records]: a record
    of the object itself, or what the object inherits under that name (a
    function, or the prototype), or nothing. *)
Inductive Found :=
| Own (record : LocaleRecord)
| Inherited.

Definition get (records : gmap string LocaleRecord) (locale : string) : option Found :=
  match records !! locale with
  | Some record => Some (Own record)
  | None => if bool_decide (locale ∈ Object_prototype) then Some Inherited else None
  end.

Section Collaborators.

Variable escapeMarkdown : string -> string.
Variable decorateLocale : string -> string.
Variable t : string -> string.
Variable command_id : Commands -> string.
Variable encodeArgs : CommandArgs -> string.
Variable reviewEnabled preferEditor : bool.
Variable isTranslatable isEditable isOpenable : LocaleRecord -> bool.
Variable isLocaleRecord : LocaleRecord -> bool.
Variable getValueByKey : option string -> string -> Z -> option string.

(** [makeMarkdownCommand]; [encodeArgs] stands for
    [encodeURIComponent(JSON.stringify({ actionSource, ...args }))]. *)
Definition makeMarkdownCommand (command : Commands) (args : CommandArgs) : string :=
  "command:" +:+ command_id command +:+ "?" +:+ encodeArgs args.

(** [formatValue] *)
Definition formatValue (text : string) : string :=
  escapeMarkdown (collapse text).

(** [getAvaliableCommands (record?, keyIndex?)] *)
Definition getAvaliableCommands (record : option LocaleRecord) (keyIndex : option Z)
    : list Entry :=
  match record with
  | None => []
  | Some record =>
      let with_index := {| arg_keypath := rec_keypath record;
                           arg_locale := rec_locale record;
                           arg_keyIndex := Some keyIndex |} in
      let without_index := {| arg_keypath := rec_keypath record;
                              arg_locale := rec_locale record;
                              arg_keyIndex := None |} in
      (if reviewEnabled
       then [Button (t "command.open_review") "💬"
               (makeMarkdownCommand open_in_editor with_index)]
       else [])
      ++ (if isTranslatable record
          then [Button (t "command.translate_key") "🌏"
                  (makeMarkdownCommand translate_key without_index)]
          else [])
      ++ [if isEditable record
          then Button (t "command.edit_key") "✏️"
                 (if preferEditor
                  then makeMarkdownCommand open_in_editor with_index
                  else makeMarkdownCommand edit_key without_index)
          else Placeholder EmptyButton]
      ++ [if isOpenable record
          then Button (t "command.open_key") "↗️"
                 (makeMarkdownCommand open_key without_index)
          else Placeholder EmptyButton]
  end.

(** [typeof c === 'string' ? c : `[${c.icon}](${c.command} "${c.text}")`] *)
Definition render (c : Entry) : string :=
  match c with
  | Placeholder s => s
  | Button text icon command =>
      "[" +:+ icon +:+ "](" +:+ command +:+ " " +:+ quote +:+ text +:+ quote +:+ ")"
  end.

(** One row of the table, for what [records[locale]] has found. An
    inherited property is truthy, has no [keypath] and is no instance of
    [LocaleRecord]. *)
Definition row (record : Found) (locale : string) (maxLength : Z)
    (keyIndex : option Z) : string :=
  let keypath :=
    match record with
    | Own record => Some (rec_keypath record)
    | Inherited => None
    end in
  let value := formatValue (Js.or_string (getValueByKey keypath locale maxLength) "-") in
  let commands :=
    match record with
    | Own record =>
        if isLocaleRecord record
        then join_with " " (map render (getAvaliableCommands (Some record) keyIndex))
        else ""
    | Inherited => ""
    end in
  "| | **" +:+ decorateLocale locale +:+ "** | | " +:+ value +:+ " | " +:+ commands +:+ " |".

(** [createTable (visibleLocales, records, maxLength = 0, keyIndex?)] *)
Definition createTable (visibleLocales : list string)
    (records : gmap string LocaleRecord) (maxLength : option Z) (keyIndex : option Z)
    : string :=
  let transTable :=
    join_with newline
      (flat_map (fun locale =>
                   match get records locale with
                   | None => []
                   | Some record => [row record locale (Js.param 0%Z maxLength) keyIndex]
                   end) visibleLocales) in
  if negb (Js.truthy_string transTable) then ""
  else "| | | | | |" +:+ newline +:+ "|---|---:|---|---|---:|" +:+ newline
       +:+ transTable +:+ newline +:+ "| | | | | |".

End Collaborators.

End Hover.

(** * Properties *)

(** ** [LocaleNode.getValue] *)

Module NodeFacts.

(** The reading of the accessor that takes the record's value whenever a
    record exists. *)
Definition value_of_record_or (n : LocaleNode) (l : string) (f : option string) : string :=
  match locales n !! l with
  | Some r => rec_value r
  | None => Js.param "" f
  end.

(** A node whose only record, for [fr], holds the empty string. *)
Definition sample_empty_record : LocaleRecord :=
  {| rec_keypath := "a.b"; rec_keyname := "b"; rec_value := ""; rec_locale := "fr";
     rec_filepath := Some "fr.json"; rec_shadow := None |}.

Definition sample_node : LocaleNode :=
  Node.new KeyPath.getKeyname "a.b" (Some {[ "fr" := sample_empty_record ]}) None.

Lemma or_string_truthy (x : option string) (y : string) :
  Js.or_string x y =
    match x with
    | Some s => if decide (s = "") then y else s
    | None => y
    end.
Proof.
  destruct x as [[|c s]|]; simpl; [reflexivity| |reflexivity].
  destruct (decide (String c s = "")) as [E|_]; [discriminate E|reflexivity].
Qed.

(** The constructor stores the flag it is given and compares it with
    nothing; left out, the flag is [false]. *)
Lemma new_shadow (getKeyname : string -> string) (kp : string)
    (ls : option (gmap string LocaleRecord)) (sh : option bool) :
  shadow (Node.new getKeyname kp ls sh) = Js.param false sh /\
  locales (Node.new getKeyname kp ls sh) = Js.param ∅ ls.
Proof. split; reflexivity. Qed.

(** C1, as stated, fails: the node holds a record for [fr] whose value is
    the empty string, and [getValue("fr", "-")] returns the fallback ["-"],
    not the value of the record. *)
Lemma getValue_record_value_counterexample :
  locales sample_node !! "fr" = Some sample_empty_record /\
  Node.getValue sample_node "fr" (Some "-") = "-" /\
  Node.getValue sample_node "fr" (Some "-")
    <> value_of_record_or sample_node "fr" (Some "-").
Proof. vm_compute. repeat split; try reflexivity; discriminate. Qed.

(** C1, amended: [getValue(l, f)] returns the value of the record
    [locales[l]] when such a record exists and its value is not the empty
    string, and returns [f] otherwise, [f] being the empty string when it
    is omitted. *)
Theorem getValue_spec (n : LocaleNode) (l : string) (f : option string) :
  Node.getValue n l f =
    match locales n !! l with
    | Some r => if decide (rec_value r = "") then Js.param "" f else rec_value r
    | None => Js.param "" f
    end.
Proof.
  unfold Node.getValue, Node.record_value.
  rewrite or_string_truthy.
  destruct (locales n !! l); reflexivity.
Qed.

(** C2: when the record of [l] holds the empty string and the fallback [f]
    is not empty, [getValue(l, f)] is [f] and not the empty string; and
    whatever the fallback, [getValue] answers for [l] as it does on any
    node that has no record for [l] at all. *)
Theorem getValue_empty_translation (n : LocaleNode) (l : string) (r : LocaleRecord)
    (f : string) :
  locales n !! l = Some r ->
  rec_value r = "" ->
  f <> "" ->
  Node.getValue n l (Some f) = f /\
  Node.getValue n l (Some f) <> "" /\
  forall (n' : LocaleNode) (fb : option string),
    locales n' !! l = None ->
    Node.getValue n l fb = Node.getValue n' l fb.
Proof.
  intros Hr Hv Hf.
  assert (Hall : forall fb, Node.getValue n l fb = Js.param "" fb).
  { intros fb. unfold Node.getValue, Node.record_value. rewrite Hr, Hv. reflexivity. }
  split; [apply Hall|].
  split; [rewrite Hall; exact Hf|].
  intros n' fb Hn'. rewrite Hall.
  unfold Node.getValue, Node.record_value. rewrite Hn'. reflexivity.
Qed.

Lemma getValue_empty_translation_witness :
  Node.getValue sample_node "fr" (Some "-") = "-" /\
  Node.getValue sample_node "fr" (Some "-") <> "" /\
  forall (n' : LocaleNode) (fb : option string),
    locales n' !! "fr" = None ->
    Node.getValue sample_node "fr" fb = Node.getValue n' "fr" fb.
Proof.
  apply (getValue_empty_translation sample_node "fr" sample_empty_record "-").
  - vm_compute. reflexivity.
  - reflexivity.
  - discriminate.
Defined.

(** The invariant of the data model: the flag of the node is set only
    if every record of the node is a shadow record. *)
Definition shadow_only_if_all_shadow (n : LocaleNode) : Prop :=
  shadow n = true ->
  forall l r, locales n !! l = Some r -> rec_shadow r = Some true.

Definition sample_real_record : LocaleRecord :=
  {| rec_keypath := "a.b"; rec_keyname := "b"; rec_value := "hi"; rec_locale := "en";
     rec_filepath := Some "en.json"; rec_shadow := None |}.

(** C7, as stated, fails: the constructor accepts the flag [true] next to
    a record that is no shadow record, and the node it returns has
    [shadow = true]. *)
Lemma constructor_shadow_counterexample :
  let n := Node.new KeyPath.getKeyname "a.b" (Some {[ "en" := sample_real_record ]})
             (Some true) in
  shadow n = true /\
  locales n !! "en" = Some sample_real_record /\
  rec_shadow sample_real_record <> Some true /\
  ~ shadow_only_if_all_shadow n.
Proof.
  split; [reflexivity|]. split; [reflexivity|]. split; [discriminate|].
  intros H. specialize (H eq_refl "en" sample_real_record eq_refl). discriminate H.
Qed.

(** C7, amended: the flag of a node is the [shadow] argument its
    constructor was given, [false] when the argument is left out, and
    the constructor compares it with no record. So the flag is true only
    if every record of the node is a shadow record exactly when the
    caller passes [true] only together with records that are all shadow
    records; a node constructed without the argument, or with [false],
    has [shadow = false] whatever its records. *)
Theorem constructor_shadow_flag (getKeyname : string -> string) (kp : string)
    (ls : option (gmap string LocaleRecord)) (sh : option bool) :
  let n := Node.new getKeyname kp ls sh in
  shadow n = Js.param false sh /\
  locales n = Js.param ∅ ls /\
  (shadow_only_if_all_shadow n <->
   (sh = Some true ->
    forall l r, Js.param ∅ ls !! l = Some r -> rec_shadow r = Some true)) /\
  (sh <> Some true -> shadow n = false /\ shadow_only_if_all_shadow n) /\
  (ls = None -> shadow_only_if_all_shadow n).
Proof.
  intros n. subst n. unfold shadow_only_if_all_shadow, Node.new. simpl.
  split; [reflexivity|]. split; [reflexivity|]. split; [|split].
  - destruct sh as [[|]|]; simpl.
    + split; intros H _; apply H; reflexivity.
    + split; intros _ E; discriminate E.
    + split; intros _ E; discriminate E.
  - intros Hsh. destruct sh as [[|]|]; simpl.
    + contradiction.
    + split; [reflexivity|]. intros E. discriminate E.
    + split; [reflexivity|]. intros E. discriminate E.
  - intros -> _ l r Hlr. simpl in Hlr. rewrite lookup_empty in Hlr. discriminate Hlr.
Qed.

End NodeFacts.

(** ** The DeepL glossary cache *)

Module DeeplFacts.
Import Deepl.

(** The freshness of the cache in the words of the design notes: a
    timestamp is recorded, it is not zero, and less than the time to live
    has passed since. *)
Definition fresh (now : Z) (c : GlossaryInfoCache) : Prop :=
  exists t : Z, lastUpdate c = Some t /\ t <> 0%Z /\ (now - t < 60000)%Z.

(** The cache as [invalidateCache] leaves it. *)
Definition invalidated : GlossaryInfoCache :=
  {| lastUpdate := Some 0%Z; glossaries := Some [] |}.

(** Unfolds the sequencing of [M] down to the pairs of world and outcome. *)
Ltac run :=
  unfold mbind, M_bind, mret, M_ret, throw, getCache, setCache, getConfig in *;
  simpl in *.

Lemma fresh_dec (now : Z) (c : GlossaryInfoCache) :
  fresh now c <->
  match lastUpdate c with
  | Some t => Js.truthy_number t && Z.ltb (now - t) GLOSSARY_CACHE_TTL = true
  | None => False
  end.
Proof.
  unfold fresh, Js.truthy_number, GLOSSARY_CACHE_TTL.
  destruct (lastUpdate c) as [t|].
  - rewrite andb_true_iff, negb_true_iff, Z.eqb_neq, Z.ltb_lt. split.
    + intros (t' & [= <-] & Hnz & Hlt). split; [exact Hnz|lia].
    + intros [Hnz Hlt]. exists t. repeat split; [exact Hnz|lia].
  - split; [intros (t & [=] & _)|intros []].
Qed.

Lemma not_fresh_invalidated (now : Z) : ~ fresh now invalidated.
Proof. intros (t & [= <-] & Hnz & _). apply Hnz. reflexivity. Qed.

Lemma isCached_run (e : Env) (w : World) :
  exists (w' : World) (b : bool),
    isCached e w = (w', inr b) /\
    cache w' = cache w /\ sent w' = sent w /\ logged w' = logged w /\
    (b = true <-> fresh (date_now e (tick w)) (cache w)).
Proof.
  pose proof (fresh_dec (date_now e (tick w)) (cache w)) as Hf.
  unfold isCached. run.
  destruct (lastUpdate (cache w)) as [t|].
  - destruct (Js.truthy_number t) eqn:Ht; simpl in *.
    + unfold Date_now. simpl. eexists _, _.
      split; [reflexivity|]. simpl. repeat split; apply Hf.
    + exists w, false. repeat split; [intros H; discriminate H|].
      intros H. apply Hf in H. discriminate H.
  - exists w, false. repeat split; [intros H; discriminate H|].
    intros H. apply Hf in H. destruct H.
Qed.

Lemma log_frame (entry : LogEntry) (e : Env) (w : World) :
  exists w', log entry e w = (w', inr tt) /\
    cache w' = cache w /\ sent w' = sent w /\ tick w' = tick w.
Proof.
  unfold log. destruct (deeplLog e); eexists; repeat split.
Qed.

Lemma deepl_sends (r : Request) (e : Env) (w : World) :
  sent (deepl r e w).1 = sent w ++ [r] /\ cache (deepl r e w).1 = cache w.
Proof.
  unfold deepl. run.
  destruct (log_frame (LogRequest r) e w) as (w1 & -> & Hc1 & Hs1 & _).
  unfold send. simpl.
  destruct (server e (tick w1) r) as [reason|status data]; simpl.
  - rewrite Hs1, Hc1. split; reflexivity.
  - match goal with |- context [log ?x e ?w0] =>
      destruct (log_frame x e w0) as (w2 & -> & Hc2 & Hs2 & _) end.
    simpl. rewrite Hs2, Hc2. simpl. rewrite Hs1, Hc1. split; reflexivity.
Qed.

Lemma fetchGlossaryList_sends (e : Env) (w : World) :
  sent (fetchGlossaryList e w).1 = sent w ++ [ListGlossaries].
Proof.
  unfold fetchGlossaryList, try_catch. run.
  pose proof (deepl_sends ListGlossaries e w) as [Hs _].
  destruct (deepl ListGlossaries e w) as [w1 [err|[status data]]]; simpl in Hs.
  - match goal with |- context [log ?x e ?w0] =>
      destruct (log_frame x e w0) as (w2 & -> & _ & Hs2 & _) end.
    simpl. congruence.
  - destruct data as [|[gl|] message detail]; simpl;
      try exact Hs;
      match goal with |- context [log ?x e ?w0] =>
        destruct (log_frame x e w0) as (w2 & -> & _ & Hs2 & _) end;
      simpl; congruence.
Qed.

Lemma app_singleton_neq {A} (l : list A) (x : A) : l ++ [x] <> l.
Proof.
  intros H. apply (f_equal length) in H. rewrite length_app in H. simpl in H. lia.
Qed.

Lemma readGlossaryList_cached (e : Env) (w : World) (forceUpdate : option bool) :
  fresh (date_now e (tick w)) (cache w) ->
  Js.param false forceUpdate = false ->
  (readGlossaryList forceUpdate e w).2 = inr (glossaries (cache w)) /\
  sent (readGlossaryList forceUpdate e w).1 = sent w /\
  cache (readGlossaryList forceUpdate e w).1 = cache w.
Proof.
  intros Hf Hforce. unfold readGlossaryList. run.
  destruct (isCached_run e w) as (w1 & b & -> & Hc & Hs & _ & Hb).
  apply Hb in Hf. subst b. rewrite Hforce. simpl. rewrite Hc. auto.
Qed.

Lemma readGlossaryList_fetches (e : Env) (w : World) (forceUpdate : option bool) :
  ~ (fresh (date_now e (tick w)) (cache w) /\ Js.param false forceUpdate = false) ->
  sent (readGlossaryList forceUpdate e w).1 = sent w ++ [ListGlossaries].
Proof.
  intros Hn. unfold readGlossaryList. run.
  destruct (isCached_run e w) as (w1 & b & -> & Hc & Hs & _ & Hb).
  destruct (b && negb (Js.param false forceUpdate)) eqn:Hcond.
  - exfalso. apply Hn. apply andb_true_iff in Hcond as [-> Hforce].
    split; [apply Hb; reflexivity|].
    apply negb_true_iff in Hforce. exact Hforce.
  - rewrite fetchGlossaryList_sends, Hs. reflexivity.
Qed.

Lemma readGlossaryList_default (o : option bool) (e : Env) (w : World) :
  Js.param false o = false ->
  readGlossaryList o e w = readGlossaryList_plain e w.
Proof.
  intros H. unfold readGlossaryList, readGlossaryList_plain. run. rewrite H.
  destruct (isCached e w) as [w1 [err|[|]]]; reflexivity.
Qed.

Lemma invalidateCache_run (e : Env) (w : World) :
  invalidateCache e w =
    ({| cache := invalidated; tick := tick w; sent := sent w; logged := logged w |}, inr tt).
Proof. reflexivity. Qed.

Lemma isCached_invalidated (e : Env) (w : World) :
  cache w = invalidated -> isCached e w = (w, inr false).
Proof. intros H. unfold isCached. run. rewrite H. reflexivity. Qed.

(** C8: [isCached] answers [true] exactly when a nonzero [lastUpdate] is
    recorded and less than 60000 ms have passed since; [readGlossaryList]
    returns [cache.glossaries] and sends nothing exactly when the cache is
    fresh and [forceUpdate] is false, and sends the list request
    otherwise; the variant of the engine file without [forceUpdate] does
    the same as the other does without the argument: it returns
    [cache.glossaries] from a fresh cache and sends nothing, and sends
    the list request from a stale one; after [invalidateCache]
    the cache is the invalidated one and [isCached] is false whatever the
    clock reads. *)
Theorem glossary_cache_freshness (e : Env) (w : World) (forceUpdate : option bool) :
  let now := date_now e (tick w) in
  ((isCached e w).2 = inr true <-> fresh now (cache w)) /\
  ((isCached e w).2 = inr false <-> ~ fresh now (cache w)) /\
  (fresh now (cache w) /\ Js.param false forceUpdate = false ->
     readGlossaryList forceUpdate e w = ((isCached e w).1, inr (glossaries (cache w))) /\
     cache (isCached e w).1 = cache w) /\
  (sent (readGlossaryList forceUpdate e w).1 = sent w <->
     fresh now (cache w) /\ Js.param false forceUpdate = false) /\
  (~ (fresh now (cache w) /\ Js.param false forceUpdate = false) ->
     sent (readGlossaryList forceUpdate e w).1 = sent w ++ [ListGlossaries]) /\
  (sent (readGlossaryList_plain e w).1 = sent w <-> fresh now (cache w)) /\
  (fresh now (cache w) ->
     readGlossaryList_plain e w = ((isCached e w).1, inr (glossaries (cache w)))) /\
  (~ fresh now (cache w) ->
     sent (readGlossaryList_plain e w).1 = sent w ++ [ListGlossaries]) /\
  readGlossaryList_plain e w = readGlossaryList None e w /\
  cache (invalidateCache e w).1 = invalidated /\
  (forall (e' : Env) (w' : World),
     cache w' = cache (invalidateCache e w).1 ->
     (isCached e' w').2 = inr false /\ ~ fresh (date_now e' (tick w')) (cache w')).
Proof.
  intros now. subst now.
  assert (Hiff : forall o,
    sent (readGlossaryList o e w).1 = sent w <->
    fresh (date_now e (tick w)) (cache w) /\ Js.param false o = false).
  { intros o. split.
    - intros Hs.
      destruct (decide (Js.param false o = false)) as [Hforce|Hforce].
      + split; [|exact Hforce].
        destruct (isCached_run e w) as (w1 & b & Hrun & _ & _ & _ & Hb).
        destruct b; [apply Hb; reflexivity|].
        exfalso. rewrite readGlossaryList_fetches in Hs.
        * exact (app_singleton_neq _ _ Hs).
        * intros [Hf _]. apply Hb in Hf. discriminate Hf.
      + exfalso. rewrite readGlossaryList_fetches in Hs.
        * exact (app_singleton_neq _ _ Hs).
        * intros [_ Hf]. exact (Hforce Hf).
    - intros [Hf Hforce]. apply readGlossaryList_cached; assumption. }
  destruct (isCached_run e w) as (w1 & b & Hrun & Hc & Hs & Hl & Hb).
  rewrite Hrun. simpl.
  split; [|split; [|split; [|split; [|split; [|split; [|split; [|split; [|split; [|split]]]]]]]]].
  - rewrite <- Hb. split; [intros [= ->]; reflexivity|intros ->; reflexivity].
  - rewrite <- Hb. split; [intros [= ->]; discriminate|].
    intros Hn. destruct b; [destruct Hn; reflexivity|reflexivity].
  - intros [Hf Hforce]. split; [|exact Hc].
    unfold readGlossaryList. run. rewrite Hrun.
    apply Hb in Hf. subst b. rewrite Hforce. simpl. rewrite Hc. reflexivity.
  - apply Hiff.
  - apply readGlossaryList_fetches.
  - rewrite <- (readGlossaryList_default None) by reflexivity.
    rewrite Hiff. simpl. tauto.
  - intros Hf. rewrite <- (readGlossaryList_default None) by reflexivity.
    unfold readGlossaryList. run. rewrite Hrun.
    apply Hb in Hf. subst b. simpl. rewrite Hc. reflexivity.
  - intros Hn. rewrite <- (readGlossaryList_default None) by reflexivity.
    apply readGlossaryList_fetches. intros [Hf _]. exact (Hn Hf).
  - symmetry. apply readGlossaryList_default. reflexivity.
  - reflexivity.
  - intros e' w' Hw'. change (cache w' = invalidated) in Hw'.
    rewrite (isCached_invalidated e' w' Hw'), Hw'. simpl.
    split; [reflexivity|apply not_fresh_invalidated].
Qed.

Definition sample_info : DeeplGlossaryInfo :=
  {| glossary_id := "g1"; name := "en-de"; ready := true; source_lang := "en";
     target_lang := "de"; creation_time := "2022-01-01T00:00:00Z"; entry_count := 3 |}.

(** A server that lists one glossary and accepts deletions and
    creations, at a clock that advances one second per effect. *)
Definition sample_env : Env :=
  {| deeplGlossariesDir := Some "glossaries";
     deeplLog := true;
     date_now := fun k => (1000 * Z.of_nat (S k))%Z;
     server := fun _ r =>
       match r with
       | ListGlossaries => Resolved 200 (JsonBody (Some [sample_info]) None None)
       | DeleteGlossary _ => Resolved 204 NoBody
       | CreateGlossary _ _ _ _ => Resolved 201 (JsonBody None None None)
       end |}.

Definition empty_world : World :=
  {| cache := {| lastUpdate := None; glossaries := None |};
     tick := 0; sent := []; logged := [] |}.

(** A first read asks the servers and fills the cache; a second read
    within the minute is answered by the cache. *)
Example read_twice :
  let w1 := (readGlossaryList None sample_env empty_world).1 in
  sent w1 = [ListGlossaries] /\
  lastUpdate (cache w1) = Some 2000%Z /\
  readGlossaryList None sample_env w1 =
    ({| cache := cache w1; tick := 3; sent := [ListGlossaries]; logged := logged w1 |},
     inr (Some [sample_info])).
Proof. vm_compute. repeat split. Qed.

(** C10: when [updateGlossary] has run, normally or with an error, the
    cache is the invalidated one ([lastUpdate = 0], [glossaries = []]),
    and the next [readGlossaryList], whenever it happens and whatever its
    flag, sends the list request instead of answering from the cache. *)
Theorem updateGlossary_invalidates (e : Env) (w : World)
    (targetLanguage sourceLanguage content : string) :
  let after := (updateGlossary targetLanguage sourceLanguage content e w).1 in
  lastUpdate (cache after) = Some 0%Z /\
  glossaries (cache after) = Some [] /\
  forall (e' : Env) (w' : World) (forceUpdate : option bool),
    cache w' = cache after ->
    sent (readGlossaryList forceUpdate e' w').1 = sent w' ++ [ListGlossaries].
Proof.
  intros after.
  assert (Hc : cache after = invalidated).
  { subst after. unfold updateGlossary, try_finally.
    match goal with |- context [match ?body with _ => _ end] =>
      destruct body as [w1 r] end.
    rewrite invalidateCache_run. reflexivity. }
  rewrite Hc. repeat split.
  intros e' w' forceUpdate Hw'.
  apply readGlossaryList_fetches. intros [Hf _].
  rewrite Hw' in Hf. exact (not_fresh_invalidated _ Hf).
Qed.

(** Both ways out of [updateGlossary] occur: with content the glossary is
    replaced and the call returns, with empty content [createGlossary]
    throws after the deletion has been sent. *)
Example updateGlossary_returns :
  let r := updateGlossary "de" "en" "hello,hallo" sample_env empty_world in
  r.2 = inr tt /\
  sent r.1 = [ListGlossaries; DeleteGlossary "g1"; CreateGlossary "en-de" "en" "de" "hello,hallo"] /\
  cache r.1 = invalidated.
Proof. vm_compute. repeat split. Qed.

Example updateGlossary_throws :
  let r := updateGlossary "de" "en" "" sample_env empty_world in
  r.2 = inl (EmptyContent "en" "de") /\
  sent r.1 = [ListGlossaries; DeleteGlossary "g1"] /\
  cache r.1 = invalidated.
Proof. vm_compute. repeat split. Qed.

(** An option the caller left out: [undefined] or the empty string. *)
Definition missing (o : option string) : Prop := o = None \/ o = Some "".

Lemma isEnabled_run (e : Env) (w : World) :
  exists b : bool, isEnabled e w = (w, inr b).
Proof. unfold isEnabled. run. eexists. reflexivity. Qed.

Lemma filter_no_match (targetLanguage sourceLanguage : string)
    (gl : list DeeplGlossaryInfo) :
  (forall g, g ∈ gl -> ~ (source_lang g = sourceLanguage /\ target_lang g = targetLanguage)) ->
  filter (fun g => matches_pair targetLanguage sourceLanguage g = true) gl = [].
Proof.
  intros Hno. induction gl as [|g gl IH]; [reflexivity|].
  rewrite filter_cons. destruct (decide _) as [Hm|_].
  - exfalso. apply (Hno g); [left|].
    unfold matches_pair in Hm. apply andb_true_iff in Hm as [Hs Ht].
    apply String.eqb_eq in Hs, Ht. split; assumption.
  - apply IH. intros g' Hg'. apply Hno. right. exact Hg'.
Qed.

(** C9: [getTranslationRequestGlossaryIdentifier] always returns, and
    never throws: its result is the empty object or an object holding one
    non-empty [glossary_id]. It is the empty object when glossaries are
    disabled, when [options.from] or [options.to] is missing, when the
    lookup of the glossary id fails, and when no glossary of the list that
    is read matches the language pair. *)
Theorem glossary_identifier_never_throws (e : Env) (w : World)
    (options : TranslateOptions) :
  exists (w' : World) (r : GlossaryIdentifier),
    getTranslationRequestGlossaryIdentifier options e w = (w', inr r) /\
    (r = EmptyObject \/ exists id : string, id <> "" /\ r = GlossaryIdentifyingPartial id) /\
    ((isEnabled e w).2 = inr false -> r = EmptyObject) /\
    (missing (from options) -> r = EmptyObject) /\
    (missing (to options) -> r = EmptyObject) /\
    (forall f t : string, from options = Some f -> to options = Some t ->
       (forall (w1 : World) (err : Error),
          getGlossaryId t f e w = (w1, inl err) -> r = EmptyObject) /\
       (forall (w1 : World) (gl : list DeeplGlossaryInfo),
          readGlossaryList None e w = (w1, inr (Some gl)) ->
          (forall g, g ∈ gl -> ~ (source_lang g = f /\ target_lang g = t)) ->
          r = EmptyObject)).
Proof.
  unfold getTranslationRequestGlossaryIdentifier, try_catch, missing, isEnabled.
  run.
  set (enabled := match deeplGlossariesDir e with
                  | Some d => Js.truthy_string d
                  | None => false
                  end).
  destruct (from options) as [f|], (to options) as [t|];
    try (exists w, EmptyObject; repeat split; auto; intros ? ? [=]).
  destruct (enabled && Js.truthy_string f && Js.truthy_string t) eqn:Hcond;
    [|exists w, EmptyObject; repeat split; auto].
  apply andb_true_iff in Hcond as [Hcond Ht].
  apply andb_true_iff in Hcond as [Hen Hf].
  destruct (getGlossaryId t f e w) as [w1 [err|[id|]]] eqn:Hget.
  - destruct (log_frame (LogError "Error reading glossary id for translation" err) e w1)
      as (w2 & -> & _).
    exists w2, EmptyObject. repeat split; auto.
  - destruct (Js.truthy_string id) eqn:Hid;
      [|exists w1, EmptyObject; repeat split; auto].
    exists w1, (GlossaryIdentifyingPartial id).
    split; [reflexivity|].
    split; [right; exists id; split; [intros ->; discriminate Hid|reflexivity]|].
    split; [rewrite Hen; intros [=]|].
    split; [intros [[=]|[= ->]]; discriminate Hf|].
    split; [intros [[=]|[= ->]]; discriminate Ht|].
    intros f0 t0 [= <-] [= <-]. split.
    + intros w1' err. rewrite Hget. intros [=].
    + intros w1' gl Hread Hno. exfalso.
      unfold getGlossaryId, getGlossaryIds in Hget. run.
      rewrite Hread in Hget.
      rewrite (filter_no_match t f gl Hno) in Hget. discriminate Hget.
  - exists w1, EmptyObject. repeat split; auto.
Qed.

(** With the glossary of [sample_env] the pair (en, de) gets its id, and
    a server that rejects the list request is answered with the empty
    object. *)
Example glossary_identifier_found :
  (getTranslationRequestGlossaryIdentifier
     {| text := "hello"; from := Some "en"; to := Some "de" |}
     sample_env empty_world).2 = inr (GlossaryIdentifyingPartial "g1").
Proof. vm_compute. reflexivity. Qed.

Definition failing_env : Env :=
  {| deeplGlossariesDir := Some "glossaries";
     deeplLog := true;
     date_now := fun k => (1000 * Z.of_nat (S k))%Z;
     server := fun _ _ => Rejected "Network Error" |}.

Example glossary_identifier_lookup_fails :
  (getGlossaryId "de" "en" failing_env empty_world).2
    = inl (RequestFailed "Network Error") /\
  (getTranslationRequestGlossaryIdentifier
     {| text := "hello"; from := Some "en"; to := Some "de" |}
     failing_env empty_world).2 = inr EmptyObject.
Proof. vm_compute. split; reflexivity. Qed.

End DeeplFacts.

(** ** KeyPath utilities *)

Module KeyPathFacts.
Import KeyPath.

(** Induction two characters at a time, as [split_from] consumes an
    escape pair. *)
Lemma string_pair_ind (P : string -> Prop) :
  P EmptyString ->
  (forall c, P (String c EmptyString)) ->
  (forall c d k, P k -> P (String d k) -> P (String c (String d k))) ->
  forall k, P k.
Proof.
  intros H0 H1 H2 k.
  assert (H : P k /\ forall c, P (String c k)); [|exact (proj1 H)].
  induction k as [|d k [IHk IHdk]].
  - split; [exact H0|exact H1].
  - split; [apply IHdk|]. intros c. apply H2; [exact IHk|apply IHdk].
Qed.

Lemma append_cons (c : ascii) (s r : string) : String c s +:+ r = String c (s +:+ r).
Proof. reflexivity. Qed.

Lemma append_empty (s : string) : s +:+ EmptyString = s.
Proof.
  induction s as [|c s IH]; [reflexivity|].
  rewrite append_cons, IH. reflexivity.
Qed.

Section Convention.

Variable sep : ascii.
Variable esc : ascii.

Local Abbreviation split_from := (split_from sep esc).
Local Abbreviation split := (split sep esc).
Local Abbreviation escape := (escape sep esc).
Local Abbreviation join := (join sep esc).
Local Abbreviation special := (special sep esc).

Lemma join_cons (s : string) (ss : list string) :
  join (s :: ss) =
    escape s +:+ match ss with
                 | [] => EmptyString
                 | _ :: _ => String sep (join ss)
                 end.
Proof.
  destruct ss as [|s' ss]; simpl; [|reflexivity].
  rewrite append_empty. reflexivity.
Qed.

Lemma join_cons_char (c : ascii) (s : string) (ss : list string) :
  special c = false ->
  join (String c s :: ss) = String c (join (s :: ss)).
Proof. intros Hc. rewrite !join_cons. simpl. rewrite Hc, !append_cons. reflexivity. Qed.

Lemma join_cons_escaped (c : ascii) (s : string) (ss : list string) :
  special c = true ->
  join (String c s :: ss) = String esc (String c (join (s :: ss))).
Proof. intros Hc. rewrite !join_cons. simpl. rewrite Hc, !append_cons. reflexivity. Qed.

Lemma join_cons_empty (s : string) (ss : list string) :
  join (EmptyString :: s :: ss) = String sep (join (s :: ss)).
Proof. reflexivity. Qed.

Lemma split_from_step (c : ascii) (rest : string) (s : string) (ss : list string) :
  Ascii.eqb c esc = false ->
  split_from (String c rest) = Some (s, ss) ->
  (forall s' ss', split_from rest = Some (s', ss') -> join (s' :: ss') = rest) ->
  join (s :: ss) = String c rest.
Proof.
  intros Hesc Hsplit IH. simpl in Hsplit. rewrite Hesc in Hsplit.
  destruct (split_from rest) as [[s' ss']|] eqn:Hrest;
    [|destruct (Ascii.eqb c sep); discriminate Hsplit].
  specialize (IH s' ss' eq_refl).
  destruct (Ascii.eqb c sep) eqn:Hsep; simpl in Hsplit;
    injection Hsplit as <- <-.
  - apply Ascii.eqb_eq in Hsep. subst c.
    rewrite join_cons_empty, IH. reflexivity.
  - rewrite join_cons_char, IH; [reflexivity|].
    unfold KeyPath.special. rewrite Hsep, Hesc. reflexivity.
Qed.

Lemma join_split_from (k : string) :
  forall s ss, split_from k = Some (s, ss) -> join (s :: ss) = k.
Proof.
  induction k as [|c|c d k IHk IHdk] using string_pair_ind; intros s ss Hsplit.
  - injection Hsplit as <- <-. reflexivity.
  - destruct (Ascii.eqb c esc) eqn:Hesc.
    + simpl in Hsplit. rewrite Hesc in Hsplit. discriminate Hsplit.
    + apply (split_from_step c EmptyString s ss Hesc Hsplit).
      intros s' ss' [= <- <-]. reflexivity.
  - destruct (Ascii.eqb c esc) eqn:Hesc.
    + simpl in Hsplit. rewrite Hesc in Hsplit.
      destruct (special d) eqn:Hd; [|discriminate Hsplit].
      destruct (KeyPath.split_from sep esc k) as [[s' ss']|] eqn:Hk; [|discriminate Hsplit].
      simpl in Hsplit. injection Hsplit as <- <-.
      apply Ascii.eqb_eq in Hesc. subst c.
      rewrite join_cons_escaped by exact Hd.
      rewrite (IHk s' ss' eq_refl). reflexivity.
    + exact (split_from_step c (String d k) s ss Hesc Hsplit IHdk).
Qed.

(** C3: for every keypath [k] that [split] accepts, [join (split k)] is
    [k] again; the segments of such a keypath may hold the separator,
    written with the escape character in [k]. *)
Theorem join_split (k : string) (segments : list string) :
  split k = Some segments -> join segments = k.
Proof.
  unfold KeyPath.split. intros Hsplit.
  destruct (KeyPath.split_from sep esc k) as [[s ss]|] eqn:Hk; [|discriminate Hsplit].
  simpl in Hsplit. injection Hsplit as <-.
  exact (join_split_from k s ss Hk).
Qed.

Lemma split_from_escape (s rest : string) :
  split_from (escape s +:+ rest) =
    match split_from rest with
    | Some (s', ss) => Some (s +:+ s', ss)
    | None => None
    end.
Proof.
  induction s as [|c s IH]; simpl.
  - change (EmptyString +:+ rest) with rest.
    destruct (split_from rest) as [[s' ss]|]; reflexivity.
  - destruct (special c) eqn:Hc; rewrite !append_cons; simpl.
    + rewrite Ascii.eqb_refl, Hc, IH.
      destruct (split_from rest) as [[s' ss]|]; reflexivity.
    + unfold KeyPath.special in Hc. apply orb_false_iff in Hc as [Hsep Hesc].
      rewrite Hesc, Hsep, IH.
      destruct (split_from rest) as [[s' ss]|]; reflexivity.
Qed.

(** In the other direction [split] undoes [join] on every non-empty list
    of segments, whatever characters they hold, provided the separator is
    not used as the escape character. *)
Lemma split_join (s : string) (ss : list string) :
  sep <> esc -> split (join (s :: ss)) = Some (s :: ss).
Proof.
  intros Hne. unfold KeyPath.split.
  assert (H : split_from (join (s :: ss)) = Some (s, ss)); [|rewrite H; reflexivity].
  revert s. induction ss as [|s' ss IH]; intros s; rewrite join_cons, split_from_escape.
  - simpl. rewrite append_empty. reflexivity.
  - change (split_from (String sep (join (s' :: ss)))) with
      (if Ascii.eqb sep esc
       then match join (s' :: ss) with
            | String d rest' =>
                if special d
                then '(s0, ss0) ← split_from rest'; Some (String d s0, ss0)
                else None
            | EmptyString => None
            end
       else if Ascii.eqb sep sep
            then '(s0, ss0) ← split_from (join (s' :: ss)); Some (EmptyString, s0 :: ss0)
            else '(s0, ss0) ← split_from (join (s' :: ss)); Some (String sep s0, ss0)).
    destruct (Ascii.eqb sep esc) eqn:Hse; [apply Ascii.eqb_eq in Hse; contradiction|].
    rewrite Ascii.eqb_refl, IH. simpl. rewrite append_empty. reflexivity.
Qed.

End Convention.

(** With [.] as separator and the backslash as escape character, the
    keypath [a\.b.c] has the two segments [a.b] and [c]. *)
Lemma join_split_witness :
  split "." "\" "a\.b.c" = Some ["a.b"; "c"] /\
  join "." "\" ["a.b"; "c"] = "a\.b.c".
Proof.
  split; [reflexivity|].
  apply (join_split "." "\" "a\.b.c" ["a.b"; "c"]). reflexivity.
Defined.

Example keyname_examples :
  keyname "." "\" "a.b.c" = Some "c" /\ keyname "." "\" "" = Some "".
Proof. split; reflexivity. Qed.

Example split_malformed : split "." "\" "a\b" = None.
Proof. reflexivity. Qed.

End KeyPathFacts.

(** ** Coverage calculator *)

Module CoverageFacts.
Import CoverageCalc.

Lemma filter_none {A} (f : A -> bool) (l : list A) :
  (forall x, x ∈ l -> f x = false) -> List.filter f l = [].
Proof.
  intros Hf. induction l as [|x l IH]; [reflexivity|]. simpl.
  rewrite (Hf x) by left. apply IH. intros y Hy. apply Hf. right. exact Hy.
Qed.

Lemma coverage_of_bounds (flatten : gmap string LocaleNode) (l : string) :
  (0 <= cov_translated (coverage_of flatten l) <= cov_total (coverage_of flatten l))%Z.
Proof.
  unfold coverage_of. simpl. split; [lia|].
  apply inj_le. rewrite <- length_map_to_list.
  etransitivity; apply List.filter_length_le.
Qed.

Lemma coverage_of_absent (flatten : gmap string LocaleNode) (l : string) :
  (forall k n, flatten !! k = Some n -> locales n !! l = None) ->
  coverage_of flatten l =
    {| cov_locale := l; cov_keys := []; cov_translated := 0;
       cov_total := Z.of_nat (size flatten) |}.
Proof.
  intros Habs. unfold coverage_of.
  rewrite (filter_none (fun kn => carries l kn.2)); [reflexivity|].
  intros [k n] Hkn. apply elem_of_map_to_list in Hkn.
  unfold carries. simpl. rewrite (Habs k n Hkn). reflexivity.
Qed.

(** C4: every record of a coverage report has [0 <= translated <= total]
    and [total] equal to the number of keypaths of the flat index, hence
    the same [total] as every other record of the report; and a requested
    locale for which no node has an entry gets the record with no keys,
    [translated = 0] and [total = size(flatten)]. *)
Theorem computeCoverage_bounds (flatten : gmap string LocaleNode) (ls : gset string) :
  (forall c : Coverage, c ∈ computeCoverage flatten ls ->
     (0 <= cov_translated c <= cov_total c)%Z /\
     cov_total c = Z.of_nat (size flatten) /\
     forall c' : Coverage, c' ∈ computeCoverage flatten ls -> cov_total c' = cov_total c) /\
  (forall l : string, l ∈ ls ->
     (forall k n, flatten !! k = Some n -> locales n !! l = None) ->
     {| cov_locale := l; cov_keys := []; cov_translated := 0;
        cov_total := Z.of_nat (size flatten) |} ∈ computeCoverage flatten ls).
Proof.
  unfold computeCoverage. split.
  - intros c Hc. apply list_elem_of_fmap in Hc as (l & -> & Hl).
    split; [apply coverage_of_bounds|]. split; [reflexivity|].
    intros c' Hc'. apply list_elem_of_fmap in Hc' as (l' & -> & _). reflexivity.
  - intros l Hl Habs. rewrite <- (coverage_of_absent flatten l Habs).
    apply list_elem_of_fmap. exists l. split; [reflexivity|].
    apply elem_of_elements. exact Hl.
Qed.

Definition en_file : ParsedFile :=
  {| pf_filepath := "en.json"; pf_locale := "en";
     pf_value := RawObject [Field "a" (RawObject [Field "b" (RawString "hi")])];
     pf_nested := true; pf_flatten := {[ "a.b" := "hi" ]} |}.

Definition fr_file : ParsedFile :=
  {| pf_filepath := "fr.json"; pf_locale := "fr";
     pf_value := RawObject [Field "a" (RawObject [Field "b" (RawString "")])];
     pf_nested := true; pf_flatten := {[ "a.b" := "" ]} |}.

(** The example of the design document: [en] gives [a.b] a value, [fr]
    leaves it empty, and nothing exists for [de]. *)
Example coverage_en_fr_de :
  computeCoverage (Builder.build_flatten ∅ [en_file; fr_file]) {[ "en"; "fr"; "de" ]} =
    [ {| cov_locale := "en"; cov_keys := ["a.b"]; cov_translated := 1; cov_total := 1 |};
      {| cov_locale := "fr"; cov_keys := ["a.b"]; cov_translated := 0; cov_total := 1 |};
      {| cov_locale := "de"; cov_keys := []; cov_translated := 0; cov_total := 1 |} ].
Proof. vm_compute. reflexivity. Qed.

End CoverageFacts.

(** ** Pending write queue *)

Module QueueFacts.
Import PendingQueue.

Lemma enqueue_all_lookup (ws : list PendingWrite)
    (q : gmap (string * string) PendingWrite) (kk : string * string) :
  enqueue_all ws q !! kk =
    match last (filter (fun w => key w = kk) ws) with
    | Some w => Some w
    | None => q !! kk
    end.
Proof.
  unfold enqueue_all. revert q.
  induction ws as [|w ws IH] using rev_ind; intros q; [reflexivity|].
  rewrite foldl_app. simpl. unfold enqueue at 1.
  rewrite filter_app, filter_cons, filter_nil.
  destruct (decide (key w = kk)) as [<-|Hne].
  - rewrite last_snoc, lookup_insert_eq. reflexivity.
  - rewrite app_nil_r, lookup_insert_ne by exact Hne. apply IH.
Qed.

Lemma enqueue_all_key (ws : list PendingWrite) (kk : string * string) (w : PendingWrite) :
  enqueue_all ws ∅ !! kk = Some w -> key w = kk.
Proof.
  rewrite enqueue_all_lookup, lookup_empty.
  destruct (last _) as [w'|] eqn:Hlast; [|discriminate].
  intros [= ->]. apply last_Some_elem_of in Hlast.
  apply list_elem_of_filter in Hlast as [Hk _]. exact Hk.
Qed.

(** C5: the queue holds one entry per (locale, keypath): a write replaces
    the queued write of the same pair, after any sequence of writes the
    entry of a pair is the last write made for it, and a flush reports
    every pair once. Two writes ["v1"] then ["v2"] for (en, a.b) leave the
    single write with ["v2"] to be persisted. *)
Theorem enqueue_last_writer_wins :
  (forall (q : gmap (string * string) PendingWrite) (w1 w2 : PendingWrite),
     key w1 = key w2 -> enqueue w2 (enqueue w1 q) = enqueue w2 q) /\
  (forall (ws : list PendingWrite) (kk : string * string),
     enqueue_all ws ∅ !! kk = last (filter (fun w => key w = kk) ws)) /\
  (forall (ws : list PendingWrite) (persist : PendingWrite -> option string),
     NoDup (map (fun wr => key wr.1) (flush persist (enqueue_all ws ∅)).1) /\
     (flush persist (enqueue_all ws ∅)).2 = ∅) /\
  (forall (l k v1 v2 : string) (fp1 fp2 : option string)
          (persist : PendingWrite -> option string),
     let w1 := {| pw_locale := l; pw_keypath := k; pw_filepath := fp1; pw_value := v1 |} in
     let w2 := {| pw_locale := l; pw_keypath := k; pw_filepath := fp2; pw_value := v2 |} in
     flush persist (enqueue w2 (enqueue w1 ∅)) = ([(w2, persist w2)], ∅)) /\
  (let w1 := {| pw_locale := "en"; pw_keypath := "a.b"; pw_filepath := None; pw_value := "v1" |} in
   let w2 := {| pw_locale := "en"; pw_keypath := "a.b"; pw_filepath := None; pw_value := "v2" |} in
   persisted (flush (fun _ => None) (enqueue w2 (enqueue w1 ∅))).1 = [w2]).
Proof.
  assert (Hreplace : forall (q : gmap (string * string) PendingWrite) w1 w2,
            key w1 = key w2 -> enqueue w2 (enqueue w1 q) = enqueue w2 q).
  { intros q w1 w2 Hk. unfold enqueue. rewrite Hk. apply insert_insert_eq. }
  split; [exact Hreplace|]. split; [|split; [|split]].
  - intros ws kk. rewrite enqueue_all_lookup, lookup_empty.
    destruct (last _); reflexivity.
  - intros ws persist. split; [|reflexivity].
    unfold flush. simpl. rewrite map_map. simpl.
    rewrite (map_ext_in _ fst).
    + change (map fst ?l) with (l.*1). apply NoDup_fst_map_to_list.
    + intros [kk w] Hin. simpl.
      apply list_elem_of_In, elem_of_map_to_list in Hin.
      exact (enqueue_all_key ws kk w Hin).
  - intros l k v1 v2 fp1 fp2 persist w1 w2.
    rewrite (Hreplace ∅ w1 w2) by reflexivity.
    unfold flush, enqueue. rewrite insert_empty, map_to_list_singleton. reflexivity.
  - vm_compute. reflexivity.
Qed.

End QueueFacts.

(** ** Change detector *)

Module DiffFacts.
Import ChangeDetector.

Lemma flat_map_nil {A B} (f : A -> list B) (l : list A) :
  flat_map f l = [] <-> forall x, x ∈ l -> f x = [].
Proof.
  induction l as [|x l IH]; simpl.
  - split; [intros _ y Hy; inversion Hy|reflexivity].
  - split.
    + intros H. apply app_eq_nil in H as [Hx Hl].
      intros y Hy. apply elem_of_cons in Hy as [->|Hy]; [exact Hx|].
      apply IH; assumption.
    + intros H. rewrite (H x) by left. simpl. apply IH.
      intros y Hy. apply H. right. exact Hy.
Qed.

Lemma omap_nil {A B} (f : A -> option B) (l : list A) :
  omap f l = [] <-> forall x, x ∈ l -> f x = None.
Proof.
  induction l as [|x l IH]; simpl.
  - split; [intros _ y Hy; inversion Hy|reflexivity].
  - destruct (f x) as [b|] eqn:Hfx.
    + split; [discriminate|]. intros H. rewrite (H x) in Hfx by left. discriminate Hfx.
    + rewrite IH. split.
      * intros H y Hy. apply elem_of_cons in Hy as [->|Hy]; [exact Hfx|apply H, Hy].
      * intros H y Hy. apply H. right. exact Hy.
Qed.

Lemma status_outside (n : LocaleNode) (l : string) :
  l ∉ dom (locales n) -> status n l = None.
Proof.
  intros Hl. unfold status. apply not_elem_of_dom in Hl. rewrite Hl. reflexivity.
Qed.

Lemma node_changes_nil (k : string) (p n : LocaleNode) :
  node_changes k p n = [] <-> forall l, status p l = status n l.
Proof.
  unfold node_changes. rewrite omap_nil. split.
  - intros H l.
    destruct (decide (l ∈ dom (locales p) ∪ dom (locales n))) as [Hl|Hl].
    + specialize (H l). rewrite elem_of_elements in H. specialize (H Hl).
      destruct (decide (status p l = status n l)) as [E|_]; [exact E|discriminate H].
    + apply not_elem_of_union in Hl as [Hp Hn].
      rewrite !status_outside by assumption. reflexivity.
  - intros H l _. rewrite decide_True by apply H. reflexivity.
Qed.

(** What the detector cannot tell apart: the same keypaths, and for each
    of them the same value and shadow status in every locale. *)
Definition same_content (previous next : gmap string LocaleNode) : Prop :=
  dom previous = dom next /\
  forall k p n l, previous !! k = Some p -> next !! k = Some n -> status p l = status n l.

Lemma diff_nil_iff (previous next : gmap string LocaleNode) :
  diff previous next = [] <-> same_content previous next.
Proof.
  unfold diff, same_content. rewrite flat_map_nil. split.
  - intros H. split.
    + apply set_eq. intros k. rewrite !elem_of_dom. split; intros Hk.
      * specialize (H k). rewrite elem_of_elements, elem_of_union, !elem_of_dom in H.
        specialize (H (or_introl Hk)). unfold key_events in H.
        destruct Hk as [p Hp]. rewrite Hp in H.
        destruct (next !! k); [eexists; reflexivity|discriminate H].
      * specialize (H k). rewrite elem_of_elements, elem_of_union, !elem_of_dom in H.
        specialize (H (or_intror Hk)). unfold key_events in H.
        destruct Hk as [n Hn]. rewrite Hn in H.
        destruct (previous !! k); [eexists; reflexivity|discriminate H].
    + intros k p n l Hp Hn. specialize (H k).
      rewrite elem_of_elements, elem_of_union, !elem_of_dom in H.
      specialize (H (or_introl (ex_intro _ p Hp))).
      unfold key_events in H. rewrite Hp, Hn in H.
      exact (proj1 (node_changes_nil k p n) H l).
  - intros [Hdom Hst] k _. unfold key_events.
    destruct (previous !! k) as [p|] eqn:Hp, (next !! k) as [n|] eqn:Hn.
    + apply node_changes_nil. intros l. exact (Hst k p n l Hp Hn).
    + exfalso. apply not_elem_of_dom in Hn. apply Hn. rewrite <- Hdom.
      apply elem_of_dom. eexists. exact Hp.
    + exfalso. apply not_elem_of_dom in Hp. apply Hp. rewrite Hdom.
      apply elem_of_dom. eexists. exact Hn.
    + reflexivity.
Qed.

Lemma same_content_refl (previous : gmap string LocaleNode) :
  same_content previous previous.
Proof.
  split; [reflexivity|]. intros k p n l Hp Hn. rewrite Hp in Hn.
  injection Hn as ->. reflexivity.
Qed.

(** C6: when [next] equals [previous], [diff previous next] is the empty
    list of events; in particular the indices of two builds of the same
    files are equal and their diff is empty. *)
Theorem diff_unchanged (previous next : gmap string LocaleNode) :
  next = previous ->
  diff previous next = [] /\
  forall (known : gset string) (files : list ParsedFile)
         (first second : gmap string LocaleNode),
    first = Builder.build_flatten known files ->
    second = Builder.build_flatten known files ->
    second = first /\ diff first second = [].
Proof.
  intros ->. split.
  - apply diff_nil_iff, same_content_refl.
  - intros known files first second -> ->. split; [reflexivity|].
    apply diff_nil_iff, same_content_refl.
Qed.

Lemma diff_unchanged_witness :
  diff (Builder.build_flatten ∅ [CoverageFacts.en_file; CoverageFacts.fr_file])
       (Builder.build_flatten ∅ [CoverageFacts.en_file; CoverageFacts.fr_file]) = [] /\
  forall (known : gset string) (files : list ParsedFile)
         (first second : gmap string LocaleNode),
    first = Builder.build_flatten known files ->
    second = Builder.build_flatten known files ->
    second = first /\ diff first second = [].
Proof.
  apply (diff_unchanged
           (Builder.build_flatten ∅ [CoverageFacts.en_file; CoverageFacts.fr_file])
           (Builder.build_flatten ∅ [CoverageFacts.en_file; CoverageFacts.fr_file])).
  reflexivity.
Defined.

(** The detector does report what differs: when the file of [fr] goes
    away and [de] becomes a known locale, the record of [fr] disappears
    and [de] gains a shadow record. *)
Example diff_detects :
  diff (Builder.build_flatten ∅ [CoverageFacts.en_file; CoverageFacts.fr_file])
       (Builder.build_flatten {[ "de" ]} [CoverageFacts.en_file]) =
    [(changed, "a.b", Some "fr"); (changed, "a.b", Some "de")] /\
  diff ∅ (Builder.build_flatten ∅ [CoverageFacts.en_file]) = [(added, "a.b", None)] /\
  diff (Builder.build_flatten ∅ [CoverageFacts.en_file]) ∅ = [(removed, "a.b", None)].
Proof. vm_compute. repeat split. Qed.

End DiffFacts.

(** ** Tree builder *)

Module BuilderFacts.
Import Builder.

Lemma build_flatten_lookup (known : gset string) (files : list ParsedFile)
    (k : string) (n : LocaleNode) :
  build_flatten known files !! k = Some n ->
  n = build_node files (all_locales known files) k.
Proof.
  unfold build_flatten. intros H.
  apply lookup_set_to_map in H as (k' & _ & [= -> <-]); [reflexivity|].
  intros y y' _ _ Hy. exact Hy.
Qed.

(** The nodes of a built index carry the default flag. *)
Lemma built_node_flag (known : gset string) (files : list ParsedFile)
    (k : string) (n : LocaleNode) :
  build_flatten known files !! k = Some n -> shadow n = false.
Proof. intros Hn. apply build_flatten_lookup in Hn. subst n. reflexivity. Qed.

(** The example of the design document: [de] has no file, so its record
    in the node of [a.b] is a shadow record with empty value and no file,
    next to the real records of [en] and [fr]. *)
Example shadow_record_for_de :
  let n := build_node [CoverageFacts.en_file; CoverageFacts.fr_file] {[ "en"; "fr"; "de" ]} "a.b" in
  locales n !! "de" = Some (shadow_record "de" "a.b") /\
  rec_value (shadow_record "de" "a.b") = "" /\
  rec_filepath (shadow_record "de" "a.b") = None /\
  (rec_filepath <$> locales n !! "en") = Some (Some "en.json") /\
  shadow n = false.
Proof. vm_compute. repeat split. Qed.

End BuilderFacts.

(** ** More on [LocaleNode] *)

Module NodeMore.

(** X22: with a fallback that is not empty, [getValue] never returns the
    empty string: it returns the fallback, or the value of the record of
    the locale, which is then not empty. *)
Theorem getValue_never_empty (n : LocaleNode) (l f : string) :
  f <> "" ->
  Node.getValue n l (Some f) <> "" /\
  (Node.getValue n l (Some f) = f \/
   exists r, locales n !! l = Some r /\ rec_value r <> "" /\
             Node.getValue n l (Some f) = rec_value r).
Proof.
  intros Hf. unfold Node.getValue, Node.record_value.
  rewrite NodeFacts.or_string_truthy. simpl.
  destruct (locales n !! l) as [r|]; [|auto].
  destruct (decide (rec_value r = "")) as [_|Hr]; [auto|].
  split; [exact Hr|]. right. exists r. auto.
Qed.

Lemma getValue_never_empty_witness :
  Node.getValue NodeFacts.sample_node "fr" (Some "-") <> "" /\
  (Node.getValue NodeFacts.sample_node "fr" (Some "-") = "-" \/
   exists r, locales NodeFacts.sample_node !! "fr" = Some r /\ rec_value r <> "" /\
             Node.getValue NodeFacts.sample_node "fr" (Some "-") = rec_value r).
Proof.
  apply (getValue_never_empty NodeFacts.sample_node "fr" "-"). discriminate.
Defined.

(** X23: the [value] of a node, read for a display language, is the empty
    string exactly when the node has no record for that language or a
    record with an empty value; otherwise it is the value of the
    record. *)
Theorem value_display_language (displayLanguage : string) (n : LocaleNode) :
  (Node.value displayLanguage n = "" <->
   locales n !! displayLanguage = None \/
   exists r, locales n !! displayLanguage = Some r /\ rec_value r = "") /\
  (forall r, locales n !! displayLanguage = Some r ->
     Node.value displayLanguage n = rec_value r).
Proof.
  unfold Node.value, Node.getValue, Node.record_value.
  rewrite NodeFacts.or_string_truthy. simpl.
  destruct (locales n !! displayLanguage) as [r|].
  - destruct (decide (rec_value r = "")) as [Hr|Hr].
    + split; [split; [intros _; right; exists r; auto|reflexivity]|].
      intros r' [= <-]. symmetry. exact Hr.
    + split.
      * split; [intros E; contradiction|].
        intros [[=]|(r' & [= <-] & E)]. contradiction.
      * intros r' [= <-]. reflexivity.
  - split; [split; [auto|reflexivity]|]. intros r [=].
Qed.

End NodeMore.

(** ** Runs of the glossary client *)

Module DeeplRuns.
Import Deepl.
Import DeeplFacts.

(** What the servers answer to a request sent from a world. *)
Definition answer (e : Env) (w : World) (r : Request) : Response :=
  server e (tick w) r.

Lemma log_run (entry : LogEntry) (e : Env) (w : World) :
  exists w', log entry e w = (w', inr tt) /\
    cache w' = cache w /\ sent w' = sent w /\ tick w' = tick w.
Proof. unfold log. destruct (deeplLog e); eexists; repeat split. Qed.

(** One request: it is sent whatever the answer, a rejection is thrown
    and a resolution is returned with its status and body. *)
Lemma deepl_run (r : Request) (e : Env) (w : World) :
  exists w',
    deepl r e w =
      (w', match answer e w r with
           | Rejected reason => inl (RequestFailed reason)
           | Resolved status data => inr (status, data)
           end) /\
    cache w' = cache w /\ sent w' = sent w ++ [r] /\ tick w' = S (tick w).
Proof.
  unfold deepl, answer. run.
  destruct (log_run (LogRequest r) e w) as (w1 & -> & Hc1 & Hs1 & Ht1).
  unfold send. simpl. rewrite Ht1.
  destruct (server e (tick w) r) as [reason|status data]; simpl.
  - eexists. split; [reflexivity|]. simpl. rewrite Hc1, Hs1. auto.
  - match goal with |- context [log ?x e ?w0] =>
      destruct (log_run x e w0) as (w2 & -> & Hc2 & Hs2 & Ht2) end.
    simpl in *. eexists. split; [reflexivity|].
    rewrite Hc2, Hs2, Ht2. simpl. rewrite Hc1, Hs1. auto.
Qed.

(** The outcome of the list request, as [fetchGlossaryList] reads it. *)
Definition listed (resp : Response) : Error + list DeeplGlossaryInfo :=
  match resp with
  | Rejected reason => inl (RequestFailed reason)
  | Resolved _ NoBody => inl TypeError
  | Resolved _ (JsonBody None _ _) => inl CanNotReadGlossaries
  | Resolved _ (JsonBody (Some gl) _ _) => inr gl
  end.

Lemma fetchGlossaryList_run (e : Env) (w : World) :
  exists w',
    sent w' = sent w ++ [ListGlossaries] /\
    match listed (answer e w ListGlossaries) with
    | inr gl =>
        fetchGlossaryList e w = (w', inr (Some gl)) /\
        cache w' = {| lastUpdate := Some (date_now e (S (tick w))); glossaries := Some gl |} /\
        tick w' = S (S (tick w))
    | inl err =>
        fetchGlossaryList e w = (w', inl err) /\
        cache w' = cache w /\ tick w' = S (tick w)
    end.
Proof.
  unfold fetchGlossaryList, try_catch. run.
  destruct (deepl_run ListGlossaries e w) as (w1 & -> & Hc1 & Hs1 & Ht1).
  destruct (answer e w ListGlossaries) as [reason|status [|[gl|] message detail]]; simpl.
  - match goal with |- context [log ?x e ?w0] =>
      destruct (log_run x e w0) as (w2 & -> & Hc2 & Hs2 & Ht2) end.
    exists w2. simpl. rewrite Hs2, Hc2, Ht2. auto.
  - match goal with |- context [log ?x e ?w0] =>
      destruct (log_run x e w0) as (w2 & -> & Hc2 & Hs2 & Ht2) end.
    exists w2. simpl. rewrite Hs2, Hc2, Ht2. auto.
  - unfold Date_now. simpl. eexists.
    split; [|split; [reflexivity|]]; simpl; rewrite ?Ht1; auto.
  - match goal with |- context [log ?x e ?w0] =>
      destruct (log_run x e w0) as (w2 & -> & Hc2 & Hs2 & Ht2) end.
    exists w2. simpl. rewrite Hs2, Hc2, Ht2. auto.
Qed.

(** The world in which [readGlossaryList] sends its request, when it
    sends one: the world after the cache test, which has read the clock
    if a timestamp was recorded. *)
Definition after_test (e : Env) (w : World) : World := (isCached e w).1.

Lemma after_test_frame (e : Env) (w : World) :
  cache (after_test e w) = cache w /\ sent (after_test e w) = sent w.
Proof.
  unfold after_test.
  destruct (isCached_run e w) as (w1 & b & -> & Hc & Hs & _). auto.
Qed.

Lemma readGlossaryList_fetch_run (e : Env) (w : World) (forceUpdate : option bool) :
  ~ (fresh (date_now e (tick w)) (cache w) /\ Js.param false forceUpdate = false) ->
  let w0 := after_test e w in
  let w' := (readGlossaryList forceUpdate e w).1 in
  sent w' = sent w ++ [ListGlossaries] /\
  match listed (answer e w0 ListGlossaries) with
  | inr gl =>
      (readGlossaryList forceUpdate e w).2 = inr (Some gl) /\
      cache w' = {| lastUpdate := Some (date_now e (S (tick w0))); glossaries := Some gl |}
  | inl err =>
      (readGlossaryList forceUpdate e w).2 = inl err /\ cache w' = cache w
  end.
Proof.
  intros Hn w0 w'. subst w0 w'. unfold after_test, readGlossaryList. run.
  destruct (isCached_run e w) as (w1 & b & -> & Hc & Hs & _ & Hb). simpl.
  destruct (b && negb (Js.param false forceUpdate)) eqn:Hcond.
  { exfalso. apply Hn. apply andb_true_iff in Hcond as [-> Hforce].
    split; [apply Hb; reflexivity|]. apply negb_true_iff in Hforce. exact Hforce. }
  destruct (fetchGlossaryList_run e w1) as (w2 & Hs2 & Hrun).
  destruct (listed (answer e w1 ListGlossaries)) as [err|gl];
    destruct Hrun as (-> & Hc2 & _); simpl; rewrite Hs2, Hs, Hc2; auto.
Qed.

(** X1: a read that is not answered by the cache sends the list request
    and either stores the list it gets, with the clock reading taken
    after the answer, and returns it, or throws and leaves the cache as it
    was. *)
Theorem readGlossaryList_outcome (e : Env) (w : World) (forceUpdate : option bool) :
  ~ (fresh (date_now e (tick w)) (cache w) /\ Js.param false forceUpdate = false) ->
  let w0 := after_test e w in
  let w' := (readGlossaryList forceUpdate e w).1 in
  sent w' = sent w ++ [ListGlossaries] /\
  match listed (answer e w0 ListGlossaries) with
  | inr gl =>
      (readGlossaryList forceUpdate e w).2 = inr (Some gl) /\
      cache w' = {| lastUpdate := Some (date_now e (S (tick w0))); glossaries := Some gl |}
  | inl err =>
      (readGlossaryList forceUpdate e w).2 = inl err /\ cache w' = cache w
  end.
Proof. exact (readGlossaryList_fetch_run e w forceUpdate). Qed.

Definition stale_world : World :=
  {| cache := invalidated; tick := 4; sent := []; logged := [] |}.

Lemma readGlossaryList_outcome_witness :
  let w' := (readGlossaryList None sample_env stale_world).1 in
  sent w' = [ListGlossaries] /\
  (readGlossaryList None sample_env stale_world).2 = inr (Some [sample_info]) /\
  cache w' = {| lastUpdate := Some 6000%Z; glossaries := Some [sample_info] |}.
Proof.
  apply (readGlossaryList_outcome sample_env stale_world None).
  intros [Hf _]. exact (not_fresh_invalidated _ Hf).
Defined.

(** X2: the list a read has stored is what the next read returns, without
    a request, as long as the clock has advanced less than 60000 ms past
    the stored reading and that reading was not 0. *)
Theorem readGlossaryList_twice (e e' : Env) (w : World) (forceUpdate : option bool)
    (gl : list DeeplGlossaryInfo) :
  let w0 := after_test e w in
  let w1 := (readGlossaryList forceUpdate e w).1 in
  let stored := date_now e (S (tick w0)) in
  ~ (fresh (date_now e (tick w)) (cache w) /\ Js.param false forceUpdate = false) ->
  listed (answer e w0 ListGlossaries) = inr gl ->
  stored <> 0%Z ->
  (date_now e' (tick w1) - stored < 60000)%Z ->
  (readGlossaryList None e' w1).2 = inr (Some gl) /\
  sent (readGlossaryList None e' w1).1 = sent w1 /\
  cache (readGlossaryList None e' w1).1 = cache w1.
Proof.
  intros w0 w1 stored Hn Hgl Hnz Hlt.
  pose proof (readGlossaryList_fetch_run e w forceUpdate Hn) as [_ Hout].
  fold w0 w1 in Hout. rewrite Hgl in Hout. destruct Hout as [_ Hc].
  assert (Hfresh : fresh (date_now e' (tick w1)) (cache w1)).
  { rewrite Hc. exists stored. auto. }
  destruct (readGlossaryList_cached e' w1 None Hfresh eq_refl) as (Hr & Hs & Hc').
  split; [rewrite Hr, Hc; reflexivity|split; assumption].
Qed.

Lemma readGlossaryList_twice_witness :
  let w1 := (readGlossaryList None sample_env stale_world).1 in
  (readGlossaryList None sample_env w1).2 = inr (Some [sample_info]) /\
  sent (readGlossaryList None sample_env w1).1 = sent w1 /\
  cache (readGlossaryList None sample_env w1).1 = cache w1.
Proof.
  apply (readGlossaryList_twice sample_env sample_env stale_world None [sample_info]).
  - intros [Hf _]. exact (not_fresh_invalidated _ Hf).
  - reflexivity.
  - vm_compute. discriminate.
  - vm_compute. reflexivity.
Defined.

(** The ids [getGlossaryIds] selects from a list. *)
Definition ids_of (targetLanguage sourceLanguage : string) (gl : list DeeplGlossaryInfo)
    : list string :=
  map glossary_id (filter (fun g => matches_pair targetLanguage sourceLanguage g = true) gl).

Lemma matches_pair_iff (targetLanguage sourceLanguage : string) (g : DeeplGlossaryInfo) :
  matches_pair targetLanguage sourceLanguage g = true <->
  source_lang g = sourceLanguage /\ target_lang g = targetLanguage.
Proof.
  unfold matches_pair. rewrite andb_true_iff, !String.eqb_eq. reflexivity.
Qed.

Lemma getGlossaryIds_run (targetLanguage sourceLanguage : string) (e : Env) (w : World) :
  getGlossaryIds targetLanguage sourceLanguage e w =
    match readGlossaryList None e w with
    | (w', inr (Some gl)) => (w', inr (ids_of targetLanguage sourceLanguage gl))
    | (w', inr None) => (w', inl TypeError)
    | (w', inl err) => (w', inl err)
    end.
Proof.
  unfold getGlossaryIds. run.
  destruct (readGlossaryList None e w) as [w' [err|[gl|]]]; reflexivity.
Qed.

(** X3: the id [getGlossaryId] returns belongs to the first glossary of
    the list it read whose source and target language are the given ones;
    it returns [undefined] exactly when the list has no such glossary. *)
Theorem getGlossaryId_first_match (targetLanguage sourceLanguage : string)
    (e : Env) (w w' : World) (gl : list DeeplGlossaryInfo) :
  readGlossaryList None e w = (w', inr (Some gl)) ->
  exists found : option string,
    getGlossaryId targetLanguage sourceLanguage e w = (w', inr found) /\
    match found with
    | Some id =>
        exists (before : list DeeplGlossaryInfo) (g : DeeplGlossaryInfo)
               (after : list DeeplGlossaryInfo),
          gl = before ++ g :: after /\
          glossary_id g = id /\
          source_lang g = sourceLanguage /\ target_lang g = targetLanguage /\
          forall g', g' ∈ before ->
            ~ (source_lang g' = sourceLanguage /\ target_lang g' = targetLanguage)
    | None =>
        forall g', g' ∈ gl ->
          ~ (source_lang g' = sourceLanguage /\ target_lang g' = targetLanguage)
    end.
Proof.
  intros Hread. unfold getGlossaryId. run.
  rewrite getGlossaryIds_run, Hread. eexists. split; [reflexivity|].
  unfold ids_of. clear Hread.
  induction gl as [|g gl IH]; simpl.
  - intros g' Hg'. inversion Hg'.
  - rewrite filter_cons.
    destruct (decide (matches_pair targetLanguage sourceLanguage g = true)) as [Hm|Hm].
    + simpl. exists [], g, gl. apply matches_pair_iff in Hm as [Hs Ht].
      repeat split; auto. intros g' Hg'. inversion Hg'.
    + rewrite matches_pair_iff in Hm.
      destruct (map glossary_id (filter _ gl)) as [|id ids] eqn:Hids.
      * intros g' Hg'. apply elem_of_cons in Hg' as [->|Hg']; [exact Hm|].
        apply IH. exact Hg'.
      * destruct IH as (before & g0 & after & -> & Hid & Hs & Ht & Hbefore).
        exists (g :: before), g0, after. repeat split; auto.
        intros g' Hg'. apply elem_of_cons in Hg' as [->|Hg']; [exact Hm|].
        apply Hbefore. exact Hg'.
Qed.

Definition other_info : DeeplGlossaryInfo :=
  {| glossary_id := "g0"; name := "fr-de"; ready := true; source_lang := "fr";
     target_lang := "de"; creation_time := "2021-12-31T00:00:00Z"; entry_count := 1 |}.

(** A world whose cache holds two glossaries, stored at 1000 ms. *)
Definition cached_world : World :=
  {| cache := {| lastUpdate := Some 1000%Z; glossaries := Some [other_info; sample_info] |};
     tick := 0; sent := []; logged := [] |}.

Lemma getGlossaryId_first_match_witness :
  exists found : option string,
    getGlossaryId "de" "en" sample_env cached_world
      = ((readGlossaryList None sample_env cached_world).1, inr found) /\
    match found with
    | Some id =>
        exists (before : list DeeplGlossaryInfo) (g : DeeplGlossaryInfo)
               (after : list DeeplGlossaryInfo),
          [other_info; sample_info] = before ++ g :: after /\
          glossary_id g = id /\
          source_lang g = "en" /\ target_lang g = "de" /\
          forall g', g' ∈ before -> ~ (source_lang g' = "en" /\ target_lang g' = "de")
    | None =>
        forall g', g' ∈ [other_info; sample_info] ->
          ~ (source_lang g' = "en" /\ target_lang g' = "de")
    end.
Proof.
  apply (getGlossaryId_first_match "de" "en" sample_env cached_world).
  reflexivity.
Defined.

(** The outcome of a deletion and of a creation, read off the answer. *)
Definition deleted (id : string) (resp : Response) : Error + unit :=
  match resp with
  | Rejected reason => inl (RequestFailed reason)
  | Resolved status data =>
      if Z.eqb status 204 then inr tt
      else match data with
           | NoBody => inl TypeError
           | JsonBody _ _ _ => inl (DeleteRefused id status)
           end
  end.

Definition created (targetLanguage sourceLanguage : string) (resp : Response)
    : Error + unit :=
  match resp with
  | Rejected reason => inl (RequestFailed reason)
  | Resolved status data =>
      if Z.eqb status 201 then inr tt
      else match data with
           | NoBody => inl TypeError
           | JsonBody _ _ _ => inl (CreateRefused sourceLanguage targetLanguage status)
           end
  end.

Lemma deleteGlossary_run (id : string) (e : Env) (w : World) :
  exists w',
    deleteGlossary id e w = (w', deleted id (answer e w (DeleteGlossary id))) /\
    cache w' = cache w /\ sent w' = sent w ++ [DeleteGlossary id] /\
    tick w' = S (tick w).
Proof.
  unfold deleteGlossary, try_catch, deleted. run.
  destruct (deepl_run (DeleteGlossary id) e w) as (w1 & -> & Hc1 & Hs1 & Ht1).
  destruct (answer e w (DeleteGlossary id)) as [reason|status data]; simpl.
  - match goal with |- context [log ?x e ?w0] =>
      destruct (log_run x e w0) as (w2 & -> & Hc2 & Hs2 & Ht2) end.
    exists w2. simpl. rewrite Hs2, Hc2, Ht2. auto.
  - destruct (Z.eqb status 204).
    + match goal with |- context [log ?x e ?w0] =>
        destruct (log_run x e w0) as (w2 & -> & Hc2 & Hs2 & Ht2) end.
      exists w2. simpl. rewrite Hs2, Hc2, Ht2. auto.
    + destruct data as [|gl message detail]; simpl;
        match goal with |- context [log ?x e ?w0] =>
          destruct (log_run x e w0) as (w2 & -> & Hc2 & Hs2 & Ht2) end;
        exists w2; simpl; rewrite Hs2, Hc2, Ht2; auto.
Qed.

Lemma createGlossary_run (targetLanguage sourceLanguage content : string)
    (e : Env) (w : World) :
  content <> "" ->
  let r := CreateGlossary (sourceLanguage +:+ "-" +:+ targetLanguage)
             sourceLanguage targetLanguage content in
  exists w',
    createGlossary targetLanguage sourceLanguage content e w
      = (w', created targetLanguage sourceLanguage (answer e w r)) /\
    cache w' = cache w /\ sent w' = sent w ++ [r] /\ tick w' = S (tick w).
Proof.
  intros Hne r. unfold createGlossary.
  destruct content as [|c content]; [contradiction|]. simpl.
  unfold try_catch, created. run. fold r.
  destruct (deepl_run r e w) as (w1 & -> & Hc1 & Hs1 & Ht1).
  destruct (answer e w r) as [reason|status data]; simpl.
  - match goal with |- context [log ?x e ?w0] =>
      destruct (log_run x e w0) as (w2 & -> & Hc2 & Hs2 & Ht2) end.
    exists w2. simpl. rewrite Hs2, Hc2, Ht2. auto.
  - destruct (Z.eqb status 201); simpl.
    + exists w1. auto.
    + destruct data as [|gl message detail]; simpl;
        match goal with |- context [log ?x e ?w0] =>
          destruct (log_run x e w0) as (w2 & -> & Hc2 & Hs2 & Ht2) end;
        exists w2; simpl; rewrite Hs2, Hc2, Ht2; auto.
Qed.

Lemma createGlossary_empty (targetLanguage sourceLanguage : string) (e : Env) (w : World) :
  createGlossary targetLanguage sourceLanguage "" e w
    = (w, inl (EmptyContent sourceLanguage targetLanguage)).
Proof. reflexivity. Qed.

(** X4: [deleteGlossary] sends its one request and leaves the cache
    alone; it returns exactly when the request is resolved with status
    204, and throws on a rejection and on every other status. *)
Theorem deleteGlossary_outcome (id : string) (e : Env) (w : World) :
  sent (deleteGlossary id e w).1 = sent w ++ [DeleteGlossary id] /\
  cache (deleteGlossary id e w).1 = cache w /\
  ((deleteGlossary id e w).2 = inr tt <->
   exists data, answer e w (DeleteGlossary id) = Resolved 204 data).
Proof.
  destruct (deleteGlossary_run id e w) as (w' & -> & Hc & Hs & _). simpl.
  split; [exact Hs|]. split; [exact Hc|]. unfold deleted.
  destruct (answer e w (DeleteGlossary id)) as [reason|status data].
  - split; [discriminate|intros [d [=]]].
  - destruct (Z.eqb status 204) eqn:Hst.
    + apply Z.eqb_eq in Hst. subst status. split; [eauto|reflexivity].
    + apply Z.eqb_neq in Hst.
      split; [destruct data; discriminate|intros [d [= E _]]; contradiction].
Qed.

(** X5: [createGlossary] with empty content throws at once, sends nothing
    and changes nothing; with content it sends the one request that
    names the glossary source-target, and returns exactly when that
    request is resolved with status 201. *)
Theorem createGlossary_outcome (targetLanguage sourceLanguage content : string)
    (e : Env) (w : World) :
  let r := CreateGlossary (sourceLanguage +:+ "-" +:+ targetLanguage)
             sourceLanguage targetLanguage content in
  let run := createGlossary targetLanguage sourceLanguage content e w in
  cache run.1 = cache w /\
  (content = "" -> run = (w, inl (EmptyContent sourceLanguage targetLanguage))) /\
  (content <> "" ->
     sent run.1 = sent w ++ [r] /\
     (run.2 = inr tt <-> exists data, answer e w r = Resolved 201 data)).
Proof.
  intros r run. subst run.
  destruct (decide (content = "")) as [->|Hne].
  - rewrite createGlossary_empty. simpl.
    split; [reflexivity|]. split; [intros _; reflexivity|]. intros H. contradiction.
  - destruct (createGlossary_run targetLanguage sourceLanguage content e w Hne)
      as (w' & Hrun & Hc & Hs & _).
    fold r in Hrun, Hs. rewrite Hrun. simpl.
    split; [exact Hc|]. split; [intros E; contradiction|]. intros _.
    split; [exact Hs|]. unfold created.
    destruct (answer e w r) as [reason|status data].
    + split; [discriminate|intros [d [=]]].
    + destruct (Z.eqb status 201) eqn:Hst.
      * apply Z.eqb_eq in Hst. subst status. split; [eauto|reflexivity].
      * apply Z.eqb_neq in Hst.
        split; [destruct data; discriminate|intros [d [= E _]]; contradiction].
Qed.

Lemma forEach_detached_delete (ids : list string) (e : Env) (w : World) :
  exists w',
    forEach_detached ids deleteGlossary e w = (w', inr tt) /\
    cache w' = cache w /\ sent w' = sent w ++ map DeleteGlossary ids.
Proof.
  revert w. induction ids as [|id ids IH]; intros w; simpl.
  - exists w. rewrite app_nil_r. auto.
  - unfold try_catch. run.
    destruct (deleteGlossary_run id e w) as (w1 & -> & Hc1 & Hs1 & _).
    destruct (deleted id (answer e w (DeleteGlossary id))) as [err|[]];
      destruct (IH w1) as (w2 & -> & Hc2 & Hs2);
      exists w2; rewrite Hc2, Hs2, Hc1, Hs1, <- app_assoc; auto.
Qed.

(** X6: when the list is read, [updateGlossary] sends one deletion for
    each glossary of the list that has the given pair, in the order of
    the list, and for no other glossary; no answer to a deletion changes
    what follows. With empty content it then throws, the deletions being
    sent all the same; with content it sends the creation, and its outcome
    is the outcome of the creation. *)
Theorem updateGlossary_requests (targetLanguage sourceLanguage content : string)
    (e : Env) (w w1 : World) (gl : list DeeplGlossaryInfo) :
  readGlossaryList None e w = (w1, inr (Some gl)) ->
  let r := CreateGlossary (sourceLanguage +:+ "-" +:+ targetLanguage)
             sourceLanguage targetLanguage content in
  let run := updateGlossary targetLanguage sourceLanguage content e w in
  exists wc : World,
    sent wc = sent w1 ++ map DeleteGlossary (ids_of targetLanguage sourceLanguage gl) /\
    (content = "" ->
       run.2 = inl (EmptyContent sourceLanguage targetLanguage) /\
       sent run.1 = sent wc) /\
    (content <> "" ->
       run.2 = created targetLanguage sourceLanguage (answer e wc r) /\
       sent run.1 = sent wc ++ [r]).
Proof.
  intros Hread r run. subst run. unfold updateGlossary, try_finally. run.
  rewrite getGlossaryIds_run, Hread.
  destruct (forEach_detached_delete (ids_of targetLanguage sourceLanguage gl) e w1)
    as (wc & -> & Hcc & Hsc).
  exists wc. split; [exact Hsc|]. split.
  - intros ->. rewrite createGlossary_empty. simpl. auto.
  - intros Hne.
    destruct (createGlossary_run targetLanguage sourceLanguage content e wc Hne)
      as (w' & -> & _ & Hs & _).
    fold r in Hs |- *. simpl. auto.
Qed.

Definition two_matches_env : Env :=
  {| deeplGlossariesDir := Some "glossaries";
     deeplLog := false;
     date_now := fun k => (1000 * Z.of_nat (S k))%Z;
     server := fun _ r =>
       match r with
       | ListGlossaries =>
           Resolved 200 (JsonBody (Some [sample_info; other_info; sample_info]) None None)
       | DeleteGlossary _ => Rejected "Network Error"
       | CreateGlossary _ _ _ _ => Resolved 201 (JsonBody None None None)
       end |}.

Lemma updateGlossary_requests_witness :
  let run := updateGlossary "de" "en" "hello,hallo" two_matches_env empty_world in
  exists wc : World,
    sent wc = [ListGlossaries] ++ [DeleteGlossary "g1"; DeleteGlossary "g1"] /\
    ("hello,hallo" = "" ->
       run.2 = inl (EmptyContent "en" "de") /\ sent run.1 = sent wc) /\
    ("hello,hallo" <> "" ->
       run.2 = inr tt /\
       sent run.1 = sent wc ++ [CreateGlossary "en-de" "en" "de" "hello,hallo"]).
Proof.
  apply (updateGlossary_requests "de" "en" "hello,hallo" two_matches_env empty_world
           (readGlossaryList None two_matches_env empty_world).1
           [sample_info; other_info; sample_info]).
  reflexivity.
Defined.

(** X7: when the list cannot be read, [updateGlossary] throws the error
    of the read and sends nothing after the list request: no deletion
    and no creation. *)
Theorem updateGlossary_read_fails (targetLanguage sourceLanguage content : string)
    (e : Env) (w w1 : World) (err : Error) :
  readGlossaryList None e w = (w1, inl err) ->
  (updateGlossary targetLanguage sourceLanguage content e w).2 = inl err /\
  sent (updateGlossary targetLanguage sourceLanguage content e w).1 = sent w1.
Proof.
  intros Hread. unfold updateGlossary, try_finally. run.
  rewrite getGlossaryIds_run, Hread. simpl. auto.
Qed.

Lemma updateGlossary_read_fails_witness :
  (updateGlossary "de" "en" "hello,hallo" failing_env empty_world).2
    = inl (RequestFailed "Network Error") /\
  sent (updateGlossary "de" "en" "hello,hallo" failing_env empty_world).1
    = sent (readGlossaryList None failing_env empty_world).1.
Proof.
  apply (updateGlossary_read_fails "de" "en" "hello,hallo" failing_env empty_world).
  reflexivity.
Defined.

(** X8: when glossaries are disabled, or [from] or [to] is missing,
    [getTranslationRequestGlossaryIdentifier] answers with the empty
    object at once: it reads no clock, sends no request and writes no
    log. *)
Theorem glossary_identifier_idle (e : Env) (w : World) (options : TranslateOptions) :
  (isEnabled e w).2 = inr false \/ missing (from options) \/ missing (to options) ->
  getTranslationRequestGlossaryIdentifier options e w = (w, inr EmptyObject).
Proof.
  unfold getTranslationRequestGlossaryIdentifier, try_catch, missing, isEnabled. run.
  intros H.
  destruct (from options) as [f|], (to options) as [t|]; try reflexivity.
  destruct (match deeplGlossariesDir e with Some d => Js.truthy_string d | None => false end)
    eqn:Hen; [|reflexivity].
  destruct H as [[=]|[[[=]|[= ->]]|[[=]|[= ->]]]]; simpl; [reflexivity|].
  destruct (Js.truthy_string f); reflexivity.
Qed.

Lemma glossary_identifier_idle_witness :
  getTranslationRequestGlossaryIdentifier
    {| text := "hello"; from := None; to := Some "de" |} sample_env empty_world
    = (empty_world, inr EmptyObject).
Proof.
  apply (glossary_identifier_idle sample_env empty_world).
  right. left. left. reflexivity.
Defined.

(** X9: with glossaries enabled and both languages given, when the list
    is read the identifier holds the id of the first glossary whose
    source and target language are [options.from] and [options.to] as
    they stand (no region is stripped), provided that id is not empty;
    otherwise the empty object is returned. Nothing is sent beyond the
    read. *)
Theorem glossary_identifier_found_id (e : Env) (w w1 : World)
    (options : TranslateOptions) (f t : string) (gl : list DeeplGlossaryInfo) :
  (isEnabled e w).2 = inr true ->
  from options = Some f -> f <> "" ->
  to options = Some t -> t <> "" ->
  readGlossaryList None e w = (w1, inr (Some gl)) ->
  getTranslationRequestGlossaryIdentifier options e w =
    (w1, inr match ids_of t f gl with
             | id :: _ => if decide (id = "") then EmptyObject
                          else GlossaryIdentifyingPartial id
             | [] => EmptyObject
             end).
Proof.
  unfold getTranslationRequestGlossaryIdentifier, try_catch, isEnabled, getGlossaryId.
  run. intros [= Hen] -> Hf -> Ht Hread. rewrite Hen.
  destruct f as [|cf f]; [contradiction|]. destruct t as [|ct t]; [contradiction|].
  simpl. rewrite getGlossaryIds_run, Hread.
  destruct (ids_of (String ct t) (String cf f) gl) as [|[|c id] ids]; reflexivity.
Qed.

Lemma glossary_identifier_found_id_witness :
  getTranslationRequestGlossaryIdentifier
    {| text := "hello"; from := Some "en"; to := Some "de" |} sample_env cached_world
    = ((readGlossaryList None sample_env cached_world).1,
       inr (GlossaryIdentifyingPartial "g1")).
Proof.
  apply (glossary_identifier_found_id sample_env cached_world
           (readGlossaryList None sample_env cached_world).1
           {| text := "hello"; from := Some "en"; to := Some "de" |} "en" "de"
           [other_info; sample_info]);
    try reflexivity; discriminate.
Defined.

Lemma glossary_identifier_returns (e : Env) (w : World) (options : TranslateOptions) :
  exists (w' : World) (r : GlossaryIdentifier),
    getTranslationRequestGlossaryIdentifier options e w = (w', inr r).
Proof.
  unfold getTranslationRequestGlossaryIdentifier, try_catch, isEnabled. run.
  destruct (from options) as [f|], (to options) as [t|]; try (eexists _, _; reflexivity).
  destruct (_ && _ && _); [|eexists _, _; reflexivity].
  destruct (getGlossaryId t f e w) as [w1 [err|[id|]]].
  - destruct (log_run (LogError "Error reading glossary id for translation" err) e w1)
      as (w2 & -> & _).
    eexists _, _. reflexivity.
  - destruct (Js.truthy_string id); eexists _, _; reflexivity.
  - eexists _, _. reflexivity.
Qed.

End DeeplRuns.

(** ** The translation engine *)

Module EngineFacts.

Lemma indexOf_split (c : ascii) (s : string) (i : nat) :
  Engine.indexOf c s = Some i ->
  exists rest, s = Engine.slice_to i s +:+ String c rest.
Proof.
  revert i. induction s as [|d s IH]; intros i; simpl; [discriminate|].
  destruct (Ascii.eqb d c) eqn:Hd.
  - intros [= <-]. apply Ascii.eqb_eq in Hd. subst d. exists s. reflexivity.
  - destruct (Engine.indexOf c s) as [j|]; [|discriminate].
    intros [= <-]. destruct (IH j eq_refl) as [rest Hrest].
    exists rest. simpl. rewrite KeyPathFacts.append_cons, <- Hrest. reflexivity.
Qed.

Lemma indexOf_slice (c : ascii) (s : string) (i : nat) :
  Engine.indexOf c s = Some i ->
  Engine.indexOf c (Engine.slice_to i s) = None.
Proof.
  revert i. induction s as [|d s IH]; intros i; simpl; [discriminate|].
  destruct (Ascii.eqb d c) eqn:Hd.
  - intros [= <-]. reflexivity.
  - destruct (Engine.indexOf c s) as [j|]; [|discriminate].
    intros [= <-]. simpl. rewrite Hd, (IH j eq_refl). reflexivity.
Qed.

Lemma indexOf_none (c : ascii) (s : string) :
  Engine.indexOf c s = None <-> forall i, String.get i s <> Some c.
Proof.
  induction s as [|d s IH]; simpl.
  - split; [intros _ i; discriminate|reflexivity].
  - destruct (Ascii.eqb d c) eqn:Hd.
    + apply Ascii.eqb_eq in Hd. subst d.
      split; [discriminate|]. intros H. destruct (H 0). reflexivity.
    + apply Ascii.eqb_neq in Hd.
      destruct (Engine.indexOf c s) as [j|].
      * split; [discriminate|]. intros H. exfalso.
        assert (E : Some j = None); [|discriminate E].
        apply IH. intros i. exact (H (S i)).
      * split; [|reflexivity]. intros _ [|i]; simpl.
        -- intros [= E]. contradiction.
        -- apply IH. reflexivity.
Qed.

(** X10: [stripeLocaleCode] returns [undefined] for [undefined], and for
    a string the part before its first hyphen: the result holds no
    hyphen, the locale is the result itself or the result followed by a
    hyphen and more, and stripping the result again changes nothing. A
    locale that begins with a hyphen is stripped to the empty string. *)
Theorem stripeLocaleCode_prefix (locale : string) :
  Engine.stripeLocaleCode None = None /\
  exists code : string,
    Engine.stripeLocaleCode (Some locale) = Some code /\
    (forall i, String.get i code <> Some "-"%char) /\
    (locale = code \/ exists rest, locale = code +:+ String "-" rest) /\
    Engine.stripeLocaleCode (Some code) = Some code /\
    (forall rest, locale = String "-" rest -> code = "").
Proof.
  split; [reflexivity|]. unfold Engine.stripeLocaleCode.
  destruct locale as [|c s].
  - exists "". simpl.
    split; [reflexivity|]. split; [intros i; discriminate|].
    split; [left; reflexivity|]. split; [reflexivity|]. intros rest [=].
  - cbn [Js.truthy_string negb].
    destruct (Engine.indexOf "-" (String c s)) as [i|] eqn:Hi.
    + exists (Engine.slice_to i (String c s)).
      pose proof (indexOf_slice _ _ _ Hi) as Hnone.
      split; [reflexivity|]. split; [apply indexOf_none; exact Hnone|].
      split; [right; exact (indexOf_split _ _ _ Hi)|]. split.
      * destruct (Engine.slice_to i (String c s)) as [|c' s']; [reflexivity|].
        cbn [Js.truthy_string negb]. rewrite Hnone. reflexivity.
      * intros rest [= -> ->]. simpl in Hi. injection Hi as <-. reflexivity.
    + exists (String c s). split; [reflexivity|].
      split; [apply indexOf_none; exact Hi|]. split; [left; reflexivity|]. split.
      * cbn [Js.truthy_string negb]. rewrite Hi. reflexivity.
      * intros rest [= -> ->]. simpl in Hi. discriminate Hi.
Qed.

Example stripeLocaleCode_examples :
  Engine.stripeLocaleCode (Some "en-US") = Some "en" /\
  Engine.stripeLocaleCode (Some "zh-Hans-CN") = Some "zh" /\
  Engine.stripeLocaleCode (Some "de") = Some "de" /\
  Engine.stripeLocaleCode (Some "") = Some "" /\
  Engine.stripeLocaleCode (Some "-x") = Some "".
Proof. repeat split. Qed.

Ltac run_E :=
  unfold mbind, Engine.E_bind, mret, Engine.E_ret, Engine.throw, Engine.lift in *;
  simpl in *.

Lemma lift_log_run (entry : Deepl.LogEntry) (e : Engine.Env) (w : Engine.World) :
  exists gw,
    Engine.lift (Deepl.log entry) e w
      = ({| Engine.glossary_world := gw; Engine.posted := Engine.posted w |}, inr tt) /\
    Deepl.tick gw = Deepl.tick (Engine.glossary_world w) /\
    Deepl.sent gw = Deepl.sent (Engine.glossary_world w) /\
    Deepl.cache gw = Deepl.cache (Engine.glossary_world w).
Proof.
  unfold Engine.lift.
  destruct (DeeplRuns.log_run entry (Engine.glossary_env e) (Engine.glossary_world w))
    as (gw & -> & Hc & Hs & Ht).
  exists gw. auto.
Qed.

(** The data [translate] posts for an identifier. *)
Definition data_for (options : Deepl.TranslateOptions)
    (identifier : Deepl.GlossaryIdentifier) : Engine.TranslateData :=
  {| Engine.td_text := Deepl.text options;
     Engine.source_lang :=
       Engine.stripeLocaleCode
         (match Deepl.from options with
          | Some f => if Js.truthy_string f then Some f else None
          | None => None
          end);
     Engine.target_lang := Engine.stripeLocaleCode (Deepl.to options);
     Engine.glossary := identifier |}.

(** What [translate] makes of the answer to its request. *)
Definition translated (options : Deepl.TranslateOptions) (resp : Engine.TranslateResponse)
    : Deepl.Error + Engine.TranslateResult :=
  match resp with
  | Engine.TRejected reason => inl (Deepl.RequestFailed reason)
  | Engine.TResolved _ Engine.NoTranslateBody => inl Deepl.TypeError
  | Engine.TResolved _ (Engine.Translations translations) =>
      inr {| Engine.tr_text := Deepl.text options;
             Engine.tr_to := Js.or_string (Deepl.to options) "auto";
             Engine.tr_from := Js.or_string (Deepl.from options) "auto";
             Engine.response := translations;
             Engine.linkToResult := "";
             Engine.result :=
               match translations with
               | Some l => Some (map Engine.text l)
               | None => None
               end;
             Engine.detailed := None;
             Engine.error :=
               match translations with
               | Some _ => None
               | None => Some "No result"
               end |}
  end.

Ltac step_log :=
  match goal with |- context [Deepl.log ?x ?e0 ?w0] =>
    let gw := fresh "gw" in
    let Ht := fresh "Ht" in
    destruct (DeeplRuns.log_run x e0 w0) as (gw & -> & _ & _ & Ht); simpl
  end.

Lemma translate_run (options : Deepl.TranslateOptions) (e : Engine.Env)
    (w : Engine.World) (gw : Deepl.World) (identifier : Deepl.GlossaryIdentifier) :
  Deepl.getTranslationRequestGlossaryIdentifier options
    (Engine.glossary_env e) (Engine.glossary_world w) = (gw, inr identifier) ->
  exists w',
    Engine.translate options e w =
      (w', translated options
             (Engine.translator e (Deepl.tick gw) (data_for options identifier))) /\
    Engine.posted w' = Engine.posted w ++ [data_for options identifier].
Proof.
  intros Hid.
  unfold Engine.translate, Engine.try_catch, Engine.post, Engine.transform, Engine.send.
  run_E. rewrite Hid. simpl. step_log. rewrite Ht.
  fold (data_for options identifier).
  destruct (Engine.translator e (Deepl.tick gw) (data_for options identifier))
    as [reason|status [|[l|]]]; simpl; repeat step_log;
    eexists; split; reflexivity.
Qed.

(** X11: [translate] posts exactly one translation request, with the
    languages stripped of their region and with the identifier the
    glossary lookup returned (the empty object when the lookup failed). A
    rejection and an answer without body are thrown; an answer without
    [translations] is returned with the error [No result] and no result;
    an answer with translations is returned with their texts in order
    and no error, also when there are none. *)
Theorem translate_outcome (options : Deepl.TranslateOptions)
    (e : Engine.Env) (w : Engine.World) :
  exists (gw : Deepl.World) (identifier : Deepl.GlossaryIdentifier),
    Deepl.getTranslationRequestGlossaryIdentifier options
      (Engine.glossary_env e) (Engine.glossary_world w) = (gw, inr identifier) /\
    let d := data_for options identifier in
    let run := Engine.translate options e w in
    Engine.posted run.1 = Engine.posted w ++ [d] /\
    match Engine.translator e (Deepl.tick gw) d with
    | Engine.TRejected reason => run.2 = inl (Deepl.RequestFailed reason)
    | Engine.TResolved _ Engine.NoTranslateBody => run.2 = inl Deepl.TypeError
    | Engine.TResolved _ (Engine.Translations None) =>
        exists r, run.2 = inr r /\
          Engine.result r = None /\ Engine.error r = Some "No result"
    | Engine.TResolved _ (Engine.Translations (Some translations)) =>
        exists r, run.2 = inr r /\
          Engine.result r = Some (map Engine.text translations) /\
          Engine.error r = None /\
          Engine.tr_to r = Js.or_string (Deepl.to options) "auto" /\
          Engine.tr_from r = Js.or_string (Deepl.from options) "auto"
    end.
Proof.
  destruct (DeeplRuns.glossary_identifier_returns
              (Engine.glossary_env e) (Engine.glossary_world w) options)
    as (gw & identifier & Hid).
  exists gw, identifier. split; [exact Hid|]. intros d run. subst run d.
  destruct (translate_run options e w gw identifier Hid) as (w' & -> & Hp).
  simpl. split; [exact Hp|].
  destruct (Engine.translator e (Deepl.tick gw) (data_for options identifier))
    as [reason|status [|[l|]]]; simpl; eauto 10.
Qed.

Definition sample_engine_env : Engine.Env :=
  {| Engine.glossary_env := DeeplFacts.failing_env;
     Engine.translator := fun _ d =>
       Engine.TResolved 200
         (Engine.Translations
            (Some [ {| Engine.detected_source_language := "EN";
                       Engine.text := "Hallo" |} ])) |}.

(** The glossary servers fail and the translation still arrives, posted
    for [en] and [de] without glossary. *)
Example translate_without_glossary :
  let run := Engine.translate
               {| Deepl.text := "Hello"; Deepl.from := Some "en-US"; Deepl.to := Some "de-DE" |}
               sample_engine_env
               {| Engine.glossary_world := DeeplFacts.empty_world; Engine.posted := [] |} in
  Engine.posted run.1 =
    [ {| Engine.td_text := "Hello"; Engine.source_lang := Some "en";
         Engine.target_lang := Some "de"; Engine.glossary := Deepl.EmptyObject |} ] /\
  match run.2 with
  | inr r => Engine.result r = Some ["Hallo"]
  | inl _ => False
  end /\
  Deepl.sent (Engine.glossary_world run.1) = [Deepl.ListGlossaries].
Proof. vm_compute. repeat split. Qed.

End EngineFacts.

(** ** The glossary commands *)

Module CommandsFacts.

Fixpoint all_words (g : string) : bool :=
  match g with
  | EmptyString => true
  | String c rest => Commands.is_word c && all_words rest
  end.

(** Two or three word characters. *)
Definition language_code (g : string) : Prop :=
  (String.length g = 2 \/ String.length g = 3) /\ all_words g = true.

Lemma words_spec (n : nat) (s g rest : string) :
  Commands.words n s = Some (g, rest) ->
  s = g +:+ rest /\ String.length g = n /\
  all_words g = true.
Proof.
  revert s g rest. induction n as [|n IH]; intros s g rest; simpl.
  - intros [= <- <-]. auto.
  - destruct s as [|c s]; [discriminate|].
    destruct (Commands.is_word c) eqn:Hc; [|discriminate].
    destruct (Commands.words n s) as [[m rest']|] eqn:Hw; [|discriminate].
    simpl. intros [= <- <-]. destruct (IH s m rest' Hw) as (-> & Hlen & Hall).
    simpl. rewrite Hc, Hlen, Hall. auto.
Qed.

Lemma word_2_3_spec (s g rest : string) :
  (g, rest) ∈ Commands.word_2_3 s -> s = g +:+ rest /\ language_code g.
Proof.
  unfold Commands.word_2_3, language_code. intros Hin.
  apply elem_of_app in Hin as [Hin|Hin];
    destruct (Commands.words _ s) as [[g' rest']|] eqn:Hw; simpl in Hin;
    try (inversion Hin; fail);
    apply list_elem_of_singleton in Hin; injection Hin as -> ->;
    destruct (words_spec _ _ _ _ Hw) as (Hs & Hlen & Hall); auto.
Qed.

Lemma head_omap_elem {A B} (f : A -> option B) (l : list A) (b : B) :
  head (omap f l) = Some b -> exists a, a ∈ l /\ f a = Some b.
Proof.
  induction l as [|a l IH]; simpl; [discriminate|].
  destruct (f a) as [b'|] eqn:Ha; simpl.
  - intros [= ->]. exists a. split; [left|exact Ha].
  - intros H. destruct (IH H) as (a' & Hin & Ha'). exists a'. split; [right; exact Hin|exact Ha'].
Qed.

(** One character that [.] matches, and nothing more. *)
Definition one_character (ch : string) : Prop := Commands.dot ch = Some "".

Lemma dot_spec (s rest : string) :
  Commands.dot s = Some rest -> exists ch, s = ch +:+ rest /\ one_character ch.
Proof.
  unfold one_character, Commands.dot. destruct s as [|b0 rest0]; [discriminate|].
  cbv zeta.
  destruct (Nat.leb (nat_of_ascii b0) 127) eqn:H1.
  { destruct (Nat.eqb (nat_of_ascii b0) 10 || Nat.eqb (nat_of_ascii b0) 13) eqn:Hlt;
      [discriminate|].
    intros [= <-]. exists (String b0 ""). rewrite H1, Hlt. auto. }
  destruct (Nat.leb 192 (nat_of_ascii b0) && Nat.leb (nat_of_ascii b0) 223) eqn:H2.
  { destruct rest0 as [|b1 rest1]; [discriminate|].
    destruct (Commands.is_continuation b1) eqn:Hc1; [|discriminate]. intros [= <-].
    exists (String b0 (String b1 "")). rewrite H1, H2, Hc1. auto. }
  destruct (Nat.leb 224 (nat_of_ascii b0) && Nat.leb (nat_of_ascii b0) 239) eqn:H3;
    [|discriminate].
  destruct rest0 as [|b1 [|b2 rest2]]; try discriminate.
  match goal with
  | |- (if ?c then _ else _) = _ -> _ => destruct c eqn:Hc; [|discriminate]
  end.
  intros [= <-].
  exists (String b0 (String b1 (String b2 ""))). rewrite H1, H2, H3, Hc. auto.
Qed.

Lemma csv_spec (s : string) :
  Commands.csv s = true -> exists post, s = "csv" +:+ post.
Proof.
  unfold Commands.csv.
  destruct s as [|c1 [|c2 [|c3 post]]]; try (intros H; discriminate H).
  rewrite !andb_true_iff, !Ascii.eqb_eq. intros [[-> ->] ->]. exists post. reflexivity.
Qed.

Lemma dot_csv_spec (s : string) :
  Commands.dot_csv s = true ->
  exists ch post, s = ch +:+ "csv" +:+ post /\ one_character ch.
Proof.
  unfold Commands.dot_csv.
  destruct (Commands.dot s) as [rest|] eqn:Hdot; [|discriminate].
  intros Hcsv. apply dot_spec in Hdot as (ch & -> & Hch).
  apply csv_spec in Hcsv as (post & ->). exists ch, post. auto.
Qed.

Lemma match_here_spec (s source target : string) :
  Commands.match_here s = Some (source, target) ->
  language_code source /\ language_code target /\
  exists ch post,
    s = source +:+ "-" +:+ target +:+ ch +:+ "csv" +:+ post /\ one_character ch.
Proof.
  unfold Commands.match_here. intros H.
  apply head_omap_elem in H as ([g1 rest] & Hin & Hf).
  apply word_2_3_spec in Hin as [-> Hg1].
  destruct rest as [|d rest']; [discriminate|].
  destruct (Ascii.eqb d "-") eqn:Hd; [|discriminate].
  apply Ascii.eqb_eq in Hd. subst d.
  destruct (Commands.target_csv rest') as [g2|] eqn:Ht; [|discriminate].
  simpl in Hf. injection Hf as -> ->.
  unfold Commands.target_csv in Ht.
  apply head_omap_elem in Ht as ([g rest2] & Hin2 & Hf2).
  apply word_2_3_spec in Hin2 as [-> Hg2].
  destruct (Commands.dot_csv rest2) eqn:Hdot; [|discriminate].
  injection Hf2 as ->.
  apply dot_csv_spec in Hdot as (ch & post & -> & Hch).
  split; [exact Hg1|]. split; [exact Hg2|]. exists ch, post. auto.
Qed.

Lemma exec_spec (fileName source target : string) :
  Commands.exec fileName = Some (source, target) ->
  language_code source /\ language_code target /\
  exists pre ch post,
    fileName = pre +:+ source +:+ "-" +:+ target +:+ ch +:+ "csv" +:+ post /\
    one_character ch.
Proof.
  induction fileName as [|d s IH]; simpl.
  - intros H. discriminate H.
  - destruct (Commands.match_here (String d s)) as [[g1 g2]|] eqn:Hm.
    + intros [= -> ->]. apply match_here_spec in Hm as (H1 & H2 & ch & post & Hs & Hch).
      split; [exact H1|]. split; [exact H2|]. exists "", ch, post. auto.
    + intros H. destruct (IH H) as (H1 & H2 & pre & ch & post & -> & Hch).
      split; [exact H1|]. split; [exact H2|]. exists (String d pre), ch, post. auto.
Qed.

(** X12: when the expression for glossary file names matches, each of
    its two groups is two or three word characters long, and the file
    name holds, somewhere, the first group, a hyphen, the second group,
    one character that is no line terminator, and [csv]. That character
    may be any of the Basic Multilingual Plane, in its one to three
    bytes. *)
Theorem exec_sound (fileName source target : string) :
  Commands.exec fileName = Some (source, target) ->
  language_code source /\ language_code target /\
  exists pre ch post,
    fileName = pre +:+ source +:+ "-" +:+ target +:+ ch +:+ "csv" +:+ post /\
    one_character ch.
Proof. exact (exec_spec fileName source target). Qed.

Lemma exec_sound_witness :
  language_code "en" /\ language_code "de" /\
  exists pre ch post,
    "my.en-deécsv.bak" = pre +:+ "en" +:+ "-" +:+ "de" +:+ ch +:+ "csv" +:+ post /\
    one_character ch.
Proof. apply (exec_sound "my.en-deécsv.bak" "en" "de"). reflexivity. Defined.

(** The dot matches one character whatever its bytes, but no line
    terminator and no more than one character. *)
Example exec_examples :
  Commands.exec "en-deécsv" = Some ("en", "de") /\
  Commands.exec "en-de€csv" = Some ("en", "de") /\
  Commands.exec "en-de.csv" = Some ("en", "de") /\
  Commands.exec ("en-de" +:+ String (ascii_of_nat 10) "csv") = None /\
  Commands.exec "en-deéécsv" = None /\
  Commands.exec "zh-Hans-en.csv" = Some ("ans", "en") /\
  Commands.exec "english-german.csv" = None.
Proof. vm_compute. repeat split. Qed.

Lemma exec_here (s : string) (groups : string * string) :
  Commands.match_here s = Some groups -> Commands.exec s = Some groups.
Proof.
  intros H. destruct s as [|c s]; [discriminate H|].
  change (Commands.exec (String c s)) with
    (match Commands.match_here (String c s) with
     | Some found => Some found
     | None => Commands.exec s
     end).
  rewrite H. reflexivity.
Qed.

Lemma language_code_cases (g : string) :
  language_code g ->
  (exists a b, g = String a (String b "") /\
     Commands.is_word a = true /\ Commands.is_word b = true) \/
  (exists a b c, g = String a (String b (String c "")) /\
     Commands.is_word a = true /\ Commands.is_word b = true /\
     Commands.is_word c = true).
Proof.
  intros [Hlen Hall].
  destruct g as [|a [|b [|c [|d g]]]]; simpl in Hlen;
    try (destruct Hlen as [Hlen|Hlen]; discriminate Hlen).
  - left. exists a, b. simpl in Hall.
    apply andb_true_iff in Hall as [Ha Hall]. apply andb_true_iff in Hall as [Hb _]. auto.
  - right. exists a, b, c. simpl in Hall.
    apply andb_true_iff in Hall as [Ha Hall]. apply andb_true_iff in Hall as [Hb Hall].
    apply andb_true_iff in Hall as [Hc _]. auto.
Qed.

(** X13: a file name of the scheme source-target.csv, with a source and
    a target of two or three word characters each, is matched and gives
    back its source and its target. *)
Theorem exec_scheme (source target : string) :
  language_code source -> language_code target ->
  Commands.exec (source +:+ "-" +:+ target +:+ ".csv") = Some (source, target).
Proof.
  intros Hs Ht. apply exec_here.
  apply language_code_cases in Hs as [(a & b & -> & Ha & Hb)|(a & b & c & -> & Ha & Hb & Hc)];
    apply language_code_cases in Ht as [(x & y & -> & Hx & Hy)|(x & y & z & -> & Hx & Hy & Hz)];
    cbv [String.append];
    unfold Commands.match_here, Commands.word_2_3, Commands.target_csv, Commands.words;
    rewrite ?Ha, ?Hb, ?Hc; simpl;
    unfold Commands.word_2_3, Commands.words;
    rewrite ?Hx, ?Hy, ?Hz; simpl; reflexivity.
Qed.

Lemma exec_scheme_witness :
  Commands.exec ("en" +:+ "-" +:+ "deu" +:+ ".csv") = Some ("en", "deu").
Proof.
  apply (exec_scheme "en" "deu"); split; try reflexivity; [left|right]; reflexivity.
Defined.

(** Glossaries are enabled: the directory setting is a non-empty
    string. *)
Definition configured (e : Commands.Env) : bool :=
  match Deepl.deeplGlossariesDir (Commands.deepl_env e) with
  | Some d => Js.truthy_string d
  | None => false
  end.

(** The world after a message has been shown, and after accesses. *)
Definition shown (m : Commands.Message) (w : Commands.World) : Commands.World :=
  {| Commands.deepl_world := Commands.deepl_world w;
     Commands.messages := Commands.messages w ++ [m];
     Commands.output := Commands.output w;
     Commands.accesses := Commands.accesses w |}.

Definition accessed (acc : list Commands.Access) (w : Commands.World) : Commands.World :=
  {| Commands.deepl_world := Commands.deepl_world w;
     Commands.messages := Commands.messages w;
     Commands.output := Commands.output w;
     Commands.accesses := Commands.accesses w ++ acc |}.

Ltac run_C :=
  unfold mbind, Commands.C_bind, mret, Commands.C_ret, Commands.throw, Commands.ask,
    Commands.lift, Commands.show, Commands.appendLine, Commands.access in *;
  simpl in *.

Lemma checkEnabled_run (e : Commands.Env) (w : Commands.World) :
  Commands.checkEnabled e w =
    (w, if configured e then inr tt else inl Commands.NotConfigured).
Proof.
  unfold Commands.checkEnabled, Deepl.isEnabled, configured. run_C.
  unfold mbind, Deepl.M_bind, mret, Deepl.M_ret, Deepl.getConfig. simpl.
  destruct w as [dw ms out acc]. simpl.
  destruct (match Deepl.deeplGlossariesDir (Commands.deepl_env e) with
            | Some d => Js.truthy_string d
            | None => false
            end); reflexivity.
Qed.

Lemma guarded_run (k : Commands.C unit) (e : Commands.Env) (w : Commands.World) :
  Commands.try_catch (_ ← Commands.checkEnabled; k)
    (fun error => Commands.show (Commands.ErrorMessage error)) e w =
  if configured e
  then match k e w with
       | (w', inl err) => (shown (Commands.ErrorMessage err) w', inr tt)
       | (w', inr _) => (w', inr tt)
       end
  else (shown (Commands.ErrorMessage Commands.NotConfigured) w, inr tt).
Proof.
  unfold Commands.try_catch. unfold mbind at 1, Commands.C_bind at 1.
  rewrite checkEnabled_run. destruct (configured e); [|reflexivity].
  destruct (k e w) as [w' [err|[]]]; reflexivity.
Qed.

(** X14: when glossaries are not configured, each of the three commands,
    with either engine file, shows the one error message [Glossaries are
    not configured] and returns. Nothing else changes: no directory is
    listed, no file is read, no pick is offered, nothing is sent and
    nothing is printed. *)
Theorem commands_not_configured (e : Commands.Env) (w : Commands.World)
    (engine : Commands.EngineFile) :
  configured e = false ->
  let w' := shown (Commands.ErrorMessage Commands.NotConfigured) w in
  Commands.updateGlossaries e w = (w', inr tt) /\
  Commands.updateGlossary e w = (w', inr tt) /\
  Commands.listGlossaries engine e w = (w', inr tt) /\
  Commands.accesses w' = Commands.accesses w /\
  Commands.deepl_world w' = Commands.deepl_world w /\
  Commands.output w' = Commands.output w.
Proof.
  intros Hc w'. subst w'.
  unfold Commands.updateGlossaries, Commands.updateGlossary, Commands.listGlossaries.
  rewrite !guarded_run, Hc. repeat split.
Qed.

(** A workspace with a glossary directory of four entries, one of which
    is no glossary file; the file of (fr, de) cannot be read. *)
Definition sample_commands_env (dir : option string) (pick : option string)
    : Commands.Env :=
  {| Commands.deepl_env :=
       {| Deepl.deeplGlossariesDir := dir;
          Deepl.deeplLog := false;
          Deepl.date_now := fun k => (1000 * Z.of_nat (S k))%Z;
          Deepl.server := Deepl.server DeeplFacts.sample_env |};
     Commands.workspaceFolders := Some ["/ws"];
     Commands.join := fun a b => a +:+ "/" +:+ b;
     Commands.readdirSync := fun _ => inr ["en-de.csv"; "notes.txt"; "fr-de.csv"; "en-fr.csv"];
     Commands.readFileSync := fun p =>
       if String.eqb p "/ws/glossaries/fr-de.csv" then inl "EACCES" else inr "hello,hallo";
     Commands.showQuickPick := fun _ => pick |}.

Definition start_world : Commands.World :=
  {| Commands.deepl_world := DeeplFacts.empty_world;
     Commands.messages := []; Commands.output := []; Commands.accesses := [] |}.

Lemma commands_not_configured_witness :
  let w' := shown (Commands.ErrorMessage Commands.NotConfigured) start_world in
  Commands.updateGlossaries (sample_commands_env None None) start_world = (w', inr tt) /\
  Commands.updateGlossary (sample_commands_env None None) start_world = (w', inr tt) /\
  Commands.listGlossaries Commands.without_forceUpdate (sample_commands_env None None)
    start_world = (w', inr tt) /\
  Commands.accesses w' = Commands.accesses start_world /\
  Commands.deepl_world w' = Commands.deepl_world start_world /\
  Commands.output w' = Commands.output start_world.
Proof.
  apply (commands_not_configured (sample_commands_env None None) start_world
           Commands.without_forceUpdate).
  reflexivity.
Defined.

(** The glossary directory of an environment, when it has one. *)
Definition glossary_directory (e : Commands.Env) : option string :=
  match Commands.workspaceFolders e, Deepl.deeplGlossariesDir (Commands.deepl_env e) with
  | Some (first :: _), Some dir => Some (Commands.join e first dir)
  | _, _ => None
  end.

Definition file_in (e : Commands.Env) (directory fileName : string)
    : option Commands.GlossaryFile :=
  match Commands.exec fileName with
  | Some (source, target) =>
      Some {| Commands.path := Commands.join e directory fileName;
              Commands.sourceLanguage := source;
              Commands.targetLanguage := target;
              Commands.name := fileName |}
  | None => None
  end.

Lemma getAvailableGlossaryFiles_run (e : Commands.Env) (w w' : Commands.World)
    (files : list Commands.GlossaryFile) :
  Commands.getAvailableGlossaryFiles e w = (w', inr files) ->
  exists directory fileNames,
    glossary_directory e = Some directory /\
    Commands.readdirSync e directory = inr fileNames /\
    files = omap (file_in e directory) fileNames /\
    w' = accessed [Commands.ListedDirectory directory] w.
Proof.
  unfold Commands.getAvailableGlossaryFiles, Commands.getWorkspacePath, Commands.readdir,
    glossary_directory.
  run_C.
  destruct (Commands.workspaceFolders e) as [[|first rest]|]; try discriminate.
  destruct (Deepl.deeplGlossariesDir (Commands.deepl_env e)) as [dir|]; [|discriminate].
  simpl.
  destruct (Commands.readdirSync e (Commands.join e first dir)) as [reason|fileNames] eqn:Hdir;
    [discriminate|].
  simpl. intros [= <- <-]. exists (Commands.join e first dir), fileNames. auto.
Qed.

Lemma updateGlossaryFromFile_accesses (file : Commands.GlossaryFile)
    (e : Commands.Env) (w : Commands.World) :
  Commands.accesses (Commands.updateGlossaryFromFile file e w).1
    = Commands.accesses w ++ [Commands.ReadFile (Commands.path file)].
Proof.
  unfold Commands.updateGlossaryFromFile, Commands.readFile. run_C.
  destruct (Commands.readFileSync e (Commands.path file)) as [reason|content]; simpl;
    [reflexivity|].
  destruct (Deepl.updateGlossary _ _ content _ _) as [dw [err|[]]]; reflexivity.
Qed.

Lemma for_of_app {A} (before after : list A) (x : A) (body : A -> Commands.C unit)
    (e : Commands.Env) (w : Commands.World) :
  Commands.for_of (before ++ x :: after) body e w =
    match Commands.for_of before body e w with
    | (w1, inr _) =>
        match body x e w1 with
        | (w2, inr _) => Commands.for_of after body e w2
        | (w2, inl err) => (w2, inl err)
        end
    | (w1, inl err) => (w1, inl err)
    end.
Proof.
  revert w. induction before as [|y before IH]; intros w; simpl.
  - unfold mbind, Commands.C_bind. destruct (body x e w) as [w2 [err|[]]]; reflexivity.
  - unfold mbind, Commands.C_bind. destruct (body y e w) as [w1 [err|[]]]; [reflexivity|].
    apply IH.
Qed.

Lemma for_of_accesses (files : list Commands.GlossaryFile)
    (e : Commands.Env) (w w' : Commands.World) :
  Commands.for_of files Commands.updateGlossaryFromFile e w = (w', inr tt) ->
  Commands.accesses w'
    = Commands.accesses w ++ map (fun f => Commands.ReadFile (Commands.path f)) files.
Proof.
  revert w. induction files as [|f files IH]; intros w; simpl.
  - intros [= <-]. rewrite app_nil_r. reflexivity.
  - unfold mbind, Commands.C_bind.
    pose proof (updateGlossaryFromFile_accesses f e w) as Hacc.
    destruct (Commands.updateGlossaryFromFile f e w) as [w1 [err|[]]]; [discriminate|].
    intros Hrest. rewrite (IH w1 Hrest). simpl in Hacc. rewrite Hacc, <- app_assoc.
    reflexivity.
Qed.

(** X15: [updateGlossaries] stops at the first glossary file that fails.
    When the files before it have been updated and its own update throws,
    the command shows the message of that error and returns in the world
    the failed update left. The files read are those before the failing
    one and the failing one, in order; no file after it is read, and
    nothing is sent for one. *)
Theorem updateGlossaries_stops (e : Commands.Env) (w w0 w1 w2 : Commands.World)
    (before after : list Commands.GlossaryFile) (file : Commands.GlossaryFile)
    (err : Commands.Error) :
  configured e = true ->
  Commands.getAvailableGlossaryFiles e w = (w0, inr (before ++ file :: after)) ->
  Commands.for_of before Commands.updateGlossaryFromFile e w0 = (w1, inr tt) ->
  Commands.updateGlossaryFromFile file e w1 = (w2, inl err) ->
  Commands.updateGlossaries e w = (shown (Commands.ErrorMessage err) w2, inr tt) /\
  exists directory,
    Commands.accesses (Commands.updateGlossaries e w).1 =
      Commands.accesses w
      ++ Commands.ListedDirectory directory
         :: map (fun f => Commands.ReadFile (Commands.path f)) (before ++ [file]).
Proof.
  intros Hc Hfiles Hbefore Hfile.
  assert (Hrun : Commands.updateGlossaries e w
                 = (shown (Commands.ErrorMessage err) w2, inr tt)).
  { unfold Commands.updateGlossaries.
    rewrite guarded_run, Hc. unfold mbind, Commands.C_bind. rewrite Hfiles.
    rewrite for_of_app, Hbefore, Hfile. reflexivity. }
  split; [exact Hrun|]. rewrite Hrun. simpl.
  destruct (getAvailableGlossaryFiles_run e w w0 _ Hfiles) as (directory & names & _ & _ & _ & ->).
  exists directory.
  pose proof (updateGlossaryFromFile_accesses file e w1) as Hacc.
  rewrite Hfile in Hacc. simpl in Hacc.
  rewrite Hacc, (for_of_accesses before e _ w1 Hbefore). simpl.
  rewrite map_app, <- !app_assoc. reflexivity.
Qed.

Definition file_of (fileName source target : string) : Commands.GlossaryFile :=
  {| Commands.path := "/ws/glossaries" +:+ "/" +:+ fileName;
     Commands.sourceLanguage := source; Commands.targetLanguage := target;
     Commands.name := fileName |}.

Lemma updateGlossaries_stops_witness :
  let e := sample_commands_env (Some "glossaries") None in
  let w0 := accessed [Commands.ListedDirectory "/ws/glossaries"] start_world in
  let w1 := (Commands.updateGlossaryFromFile (file_of "en-de.csv" "en" "de") e w0).1 in
  let w2 := accessed [Commands.ReadFile "/ws/glossaries/fr-de.csv"] w1 in
  Commands.updateGlossaries e start_world
    = (shown (Commands.ErrorMessage (Commands.FileSystem "EACCES")) w2, inr tt) /\
  exists directory,
    Commands.accesses (Commands.updateGlossaries e start_world).1 =
      Commands.accesses start_world
      ++ Commands.ListedDirectory directory
         :: map (fun f => Commands.ReadFile (Commands.path f))
              ([file_of "en-de.csv" "en" "de"] ++ [file_of "fr-de.csv" "fr" "de"]).
Proof.
  apply (updateGlossaries_stops (sample_commands_env (Some "glossaries") None) start_world
           (accessed [Commands.ListedDirectory "/ws/glossaries"] start_world)
           (Commands.updateGlossaryFromFile (file_of "en-de.csv" "en" "de")
              (sample_commands_env (Some "glossaries") None)
              (accessed [Commands.ListedDirectory "/ws/glossaries"] start_world)).1
           (accessed [Commands.ReadFile "/ws/glossaries/fr-de.csv"]
              (Commands.updateGlossaryFromFile (file_of "en-de.csv" "en" "de")
                 (sample_commands_env (Some "glossaries") None)
                 (accessed [Commands.ListedDirectory "/ws/glossaries"] start_world)).1)
           [file_of "en-de.csv" "en" "de"] [file_of "en-fr.csv" "en" "fr"]
           (file_of "fr-de.csv" "fr" "de"));
    vm_compute; reflexivity.
Defined.

(** X16: [getAvailableGlossaryFiles] lists the glossary directory once
    and changes nothing else. Every file it returns is named by an entry
    of the listing that the expression matches, has the joined directory
    and name as its path, and has a source and a target language of two
    or three word characters; every entry of the listing that the
    expression matches is returned. *)
Theorem available_files_shape (e : Commands.Env) (w w' : Commands.World)
    (files : list Commands.GlossaryFile) :
  Commands.getAvailableGlossaryFiles e w = (w', inr files) ->
  exists directory fileNames,
    glossary_directory e = Some directory /\
    Commands.readdirSync e directory = inr fileNames /\
    w' = accessed [Commands.ListedDirectory directory] w /\
    map Commands.name files
      = List.filter (fun fileName => bool_decide (is_Some (Commands.exec fileName))) fileNames /\
    forall file, file ∈ files ->
      Commands.name file ∈ fileNames /\
      Commands.path file = Commands.join e directory (Commands.name file) /\
      Commands.exec (Commands.name file)
        = Some (Commands.sourceLanguage file, Commands.targetLanguage file) /\
      language_code (Commands.sourceLanguage file) /\
      language_code (Commands.targetLanguage file).
Proof.
  intros Hrun.
  destruct (getAvailableGlossaryFiles_run e w w' files Hrun)
    as (directory & fileNames & Hdir & Hlist & -> & ->).
  exists directory, fileNames. split; [exact Hdir|]. split; [exact Hlist|].
  split; [reflexivity|]. split.
  - clear. induction fileNames as [|fileName fileNames IH]; [reflexivity|].
    simpl. unfold file_in at 1.
    destruct (Commands.exec fileName) as [[source target]|]; simpl.
    + f_equal. exact IH.
    + exact IH.
  - intros file Hin. apply list_elem_of_omap in Hin as (fileName & Hname & Hfile).
    unfold file_in in Hfile.
    destruct (Commands.exec fileName) as [[source target]|] eqn:Hexec; [|discriminate].
    injection Hfile as <-. simpl.
    destruct (exec_spec fileName source target Hexec) as (Hs & Ht & _). auto.
Qed.

Lemma available_files_shape_witness :
  exists directory fileNames,
    glossary_directory (sample_commands_env (Some "glossaries") None) = Some directory /\
    Commands.readdirSync (sample_commands_env (Some "glossaries") None) directory
      = inr fileNames /\
    accessed [Commands.ListedDirectory "/ws/glossaries"] start_world
      = accessed [Commands.ListedDirectory directory] start_world /\
    map Commands.name
        [file_of "en-de.csv" "en" "de"; file_of "fr-de.csv" "fr" "de";
         file_of "en-fr.csv" "en" "fr"]
      = List.filter (fun fileName => bool_decide (is_Some (Commands.exec fileName))) fileNames /\
    forall file,
      file ∈ [file_of "en-de.csv" "en" "de"; file_of "fr-de.csv" "fr" "de";
              file_of "en-fr.csv" "en" "fr"] ->
      Commands.name file ∈ fileNames /\
      Commands.path file
        = Commands.join (sample_commands_env (Some "glossaries") None) directory
            (Commands.name file) /\
      Commands.exec (Commands.name file)
        = Some (Commands.sourceLanguage file, Commands.targetLanguage file) /\
      language_code (Commands.sourceLanguage file) /\
      language_code (Commands.targetLanguage file).
Proof.
  apply (available_files_shape (sample_commands_env (Some "glossaries") None)
           start_world
           (accessed [Commands.ListedDirectory "/ws/glossaries"] start_world)
           [file_of "en-de.csv" "en" "de"; file_of "fr-de.csv" "fr" "de";
            file_of "en-fr.csv" "en" "fr"]).
  vm_compute. reflexivity.
Defined.

Lemma fresh_or_stale (now : Z) (c : Deepl.GlossaryInfoCache) :
  DeeplFacts.fresh now c \/ ~ DeeplFacts.fresh now c.
Proof.
  rewrite DeeplFacts.fresh_dec. destruct (Deepl.lastUpdate c) as [t|]; [|tauto].
  destruct (Js.truthy_number t && Z.ltb (now - t) Deepl.GLOSSARY_CACHE_TTL);
    [left; reflexivity|right; discriminate].
Qed.

Lemma readGlossaryList_plain_cached (e : Deepl.Env) (w : Deepl.World) :
  DeeplFacts.fresh (Deepl.date_now e (Deepl.tick w)) (Deepl.cache w) ->
  Deepl.readGlossaryList_plain e w
    = (DeeplRuns.after_test e w, inr (Deepl.glossaries (Deepl.cache w))).
Proof.
  intros Hf. unfold DeeplRuns.after_test, Deepl.readGlossaryList_plain.
  unfold mbind, Deepl.M_bind, mret, Deepl.M_ret, Deepl.getCache.
  destruct (DeeplFacts.isCached_run e w) as (w1 & b & -> & Hc & _ & _ & Hb).
  apply Hb in Hf. subst b. simpl. rewrite Hc. reflexivity.
Qed.

(** The world [listGlossaries] leaves after the read of the list has
    ended in [r]. *)
Definition listing (w : Commands.World)
    (r : Deepl.World * (Deepl.Error + option (list Deepl.DeeplGlossaryInfo)))
    : Commands.World :=
  let announced := Commands.output w ++ [Commands.Line "Reading glossary list..."] in
  match r with
  | (dw', inr gl) =>
      {| Commands.deepl_world := dw'; Commands.messages := Commands.messages w;
         Commands.output := announced ++ [Commands.GlossaryList gl];
         Commands.accesses := Commands.accesses w |}
  | (dw', inl err) =>
      {| Commands.deepl_world := dw';
         Commands.messages :=
           Commands.messages w ++ [Commands.ErrorMessage (Commands.Glossary err)];
         Commands.output := announced;
         Commands.accesses := Commands.accesses w |}
  end.

Lemma listing_accesses (w : Commands.World)
    (r : Deepl.World * (Deepl.Error + option (list Deepl.DeeplGlossaryInfo))) :
  Commands.accesses (listing w r) = Commands.accesses w.
Proof. destruct r as [dw' [err|gl]]; reflexivity. Qed.

Lemma listGlossaries_run (engine : Commands.EngineFile) (e : Commands.Env)
    (w : Commands.World) :
  configured e = true ->
  Commands.listGlossaries engine e w =
    (listing w (Commands.readGlossaryList engine (Some true) (Commands.deepl_env e)
                  (Commands.deepl_world w)), inr tt).
Proof.
  intros Hc. unfold Commands.listGlossaries. rewrite guarded_run, Hc. run_C.
  destruct (Commands.readGlossaryList engine (Some true) (Commands.deepl_env e)
              (Commands.deepl_world w)) as [dw' [err|gl]]; reflexivity.
Qed.

(** X17: when glossaries are configured, [listGlossaries] announces the
    read, reads no file and returns. What it asks of the servers depends
    on the engine file. With the file at the import path, whose
    [readGlossaryList] has no parameter, the [true] of the call is
    ignored: from a fresh cache the command prints the cached list and
    sends nothing. With the file that declares [forceUpdate], and from a
    stale cache with either file, it sends the list request: the list it
    gets is printed and replaces the cache, and an error of the read is
    shown as a message and leaves the cache as it was. *)
Theorem listGlossaries_asks (e : Commands.Env) (w : Commands.World)
    (engine : Commands.EngineFile) :
  configured e = true ->
  let dw := Commands.deepl_world w in
  let now := Deepl.date_now (Commands.deepl_env e) (Deepl.tick dw) in
  let run := Commands.listGlossaries engine e w in
  let announced := Commands.output w ++ [Commands.Line "Reading glossary list..."] in
  run.2 = inr tt /\
  Commands.accesses run.1 = Commands.accesses w /\
  (engine = Commands.without_forceUpdate -> DeeplFacts.fresh now (Deepl.cache dw) ->
     Deepl.sent (Commands.deepl_world run.1) = Deepl.sent dw /\
     Commands.output run.1
       = announced ++ [Commands.GlossaryList (Deepl.glossaries (Deepl.cache dw))] /\
     Commands.messages run.1 = Commands.messages w /\
     Deepl.cache (Commands.deepl_world run.1) = Deepl.cache dw) /\
  (engine = Commands.with_forceUpdate \/ ~ DeeplFacts.fresh now (Deepl.cache dw) ->
     Deepl.sent (Commands.deepl_world run.1) = Deepl.sent dw ++ [Deepl.ListGlossaries] /\
     match DeeplRuns.listed
             (DeeplRuns.answer (Commands.deepl_env e)
                (DeeplRuns.after_test (Commands.deepl_env e) dw) Deepl.ListGlossaries) with
     | inr gl =>
         Commands.output run.1 = announced ++ [Commands.GlossaryList (Some gl)] /\
         Commands.messages run.1 = Commands.messages w /\
         Deepl.glossaries (Deepl.cache (Commands.deepl_world run.1)) = Some gl
     | inl err =>
         Commands.output run.1 = announced /\
         Commands.messages run.1
           = Commands.messages w ++ [Commands.ErrorMessage (Commands.Glossary err)] /\
         Deepl.cache (Commands.deepl_world run.1) = Deepl.cache dw
     end).
Proof.
  intros Hc dw now run announced. subst run announced now.
  rewrite (listGlossaries_run engine e w Hc). fold dw.
  assert (Hfetch : forall forceUpdate,
    ~ (DeeplFacts.fresh (Deepl.date_now (Commands.deepl_env e) (Deepl.tick dw))
         (Deepl.cache dw) /\ Js.param false forceUpdate = false) ->
    let out := listing w (Deepl.readGlossaryList forceUpdate (Commands.deepl_env e) dw) in
    Deepl.sent (Commands.deepl_world out) = Deepl.sent dw ++ [Deepl.ListGlossaries] /\
    match DeeplRuns.listed
            (DeeplRuns.answer (Commands.deepl_env e)
               (DeeplRuns.after_test (Commands.deepl_env e) dw) Deepl.ListGlossaries) with
    | inr gl =>
        Commands.output out
          = (Commands.output w ++ [Commands.Line "Reading glossary list..."])
            ++ [Commands.GlossaryList (Some gl)] /\
        Commands.messages out = Commands.messages w /\
        Deepl.glossaries (Deepl.cache (Commands.deepl_world out)) = Some gl
    | inl err =>
        Commands.output out
          = Commands.output w ++ [Commands.Line "Reading glossary list..."] /\
        Commands.messages out
          = Commands.messages w ++ [Commands.ErrorMessage (Commands.Glossary err)] /\
        Deepl.cache (Commands.deepl_world out) = Deepl.cache dw
    end).
  { intros forceUpdate Hforce.
    pose proof (DeeplRuns.readGlossaryList_fetch_run
                  (Commands.deepl_env e) dw forceUpdate Hforce) as [Hs Hout].
    destruct (Deepl.readGlossaryList forceUpdate (Commands.deepl_env e) dw) as [dw' r].
    simpl in Hs, Hout.
    destruct (DeeplRuns.listed _) as [err|gl]; destruct Hout as [-> Hcache]; simpl;
      rewrite ?Hcache, <- ?app_assoc; auto. }
  split; [reflexivity|]. split; [apply listing_accesses|].
  destruct engine; simpl.
  - destruct (fresh_or_stale
                (Deepl.date_now (Commands.deepl_env e) (Deepl.tick dw)) (Deepl.cache dw))
      as [Hf|Hn].
    + rewrite (readGlossaryList_plain_cached _ _ Hf). simpl.
      destruct (DeeplRuns.after_test_frame (Commands.deepl_env e) dw) as [Hcache Hsent].
      split; [intros _ _; rewrite <- app_assoc; auto|].
      intros [Hengine|Hn]; [discriminate Hengine|contradiction].
    + rewrite <- (DeeplFacts.readGlossaryList_default None) by reflexivity.
      split; [intros _ Hf; contradiction|].
      intros _. apply Hfetch. intros [Hf _]. exact (Hn Hf).
  - split; [intros Hengine; discriminate Hengine|].
    intros _. apply Hfetch. intros [_ Hf]. discriminate Hf.
Qed.

Definition cached_start : Commands.World :=
  {| Commands.deepl_world := DeeplRuns.cached_world;
     Commands.messages := []; Commands.output := []; Commands.accesses := [] |}.

Lemma listGlossaries_asks_witness :
  let e := sample_commands_env (Some "glossaries") None in
  let w := cached_start in
  let engine := Commands.without_forceUpdate in
  let dw := Commands.deepl_world w in
  let now := Deepl.date_now (Commands.deepl_env e) (Deepl.tick dw) in
  let run := Commands.listGlossaries engine e w in
  let announced := Commands.output w ++ [Commands.Line "Reading glossary list..."] in
  run.2 = inr tt /\
  Commands.accesses run.1 = Commands.accesses w /\
  (engine = Commands.without_forceUpdate -> DeeplFacts.fresh now (Deepl.cache dw) ->
     Deepl.sent (Commands.deepl_world run.1) = Deepl.sent dw /\
     Commands.output run.1
       = announced ++ [Commands.GlossaryList (Deepl.glossaries (Deepl.cache dw))] /\
     Commands.messages run.1 = Commands.messages w /\
     Deepl.cache (Commands.deepl_world run.1) = Deepl.cache dw) /\
  (engine = Commands.with_forceUpdate \/ ~ DeeplFacts.fresh now (Deepl.cache dw) ->
     Deepl.sent (Commands.deepl_world run.1) = Deepl.sent dw ++ [Deepl.ListGlossaries] /\
     match DeeplRuns.listed
             (DeeplRuns.answer (Commands.deepl_env e)
                (DeeplRuns.after_test (Commands.deepl_env e) dw) Deepl.ListGlossaries) with
     | inr gl =>
         Commands.output run.1 = announced ++ [Commands.GlossaryList (Some gl)] /\
         Commands.messages run.1 = Commands.messages w /\
         Deepl.glossaries (Deepl.cache (Commands.deepl_world run.1)) = Some gl
     | inl err =>
         Commands.output run.1 = announced /\
         Commands.messages run.1
           = Commands.messages w ++ [Commands.ErrorMessage (Commands.Glossary err)] /\
         Deepl.cache (Commands.deepl_world run.1) = Deepl.cache dw
     end).
Proof.
  apply (listGlossaries_asks (sample_commands_env (Some "glossaries") None) cached_start
           Commands.without_forceUpdate).
  reflexivity.
Defined.

(** From the same fresh cache, the command sends nothing with the engine
    file at the import path and sends the list request with the other. *)
Example listGlossaries_fresh_cache :
  let e := sample_commands_env (Some "glossaries") None in
  Deepl.sent (Commands.deepl_world
                (Commands.listGlossaries Commands.without_forceUpdate e cached_start).1) = [] /\
  Deepl.sent (Commands.deepl_world
                (Commands.listGlossaries Commands.with_forceUpdate e cached_start).1)
    = [Deepl.ListGlossaries].
Proof. vm_compute. split; reflexivity. Qed.

(** X18: when the user dismisses the pick of [updateGlossary] (no choice,
    or the empty string), the command returns after it has listed the
    glossary directory and offered the names of its glossary files: no
    file is read, nothing is sent, no message is shown and nothing is
    printed. *)
Theorem updateGlossary_dismissed (e : Commands.Env) (w w0 : Commands.World)
    (files : list Commands.GlossaryFile) :
  configured e = true ->
  Commands.getAvailableGlossaryFiles e w = (w0, inr files) ->
  Commands.showQuickPick e (map Commands.name files) = None \/
  Commands.showQuickPick e (map Commands.name files) = Some "" ->
  exists directory,
    glossary_directory e = Some directory /\
    let w' := (Commands.updateGlossary e w).1 in
    (Commands.updateGlossary e w).2 = inr tt /\
    Commands.accesses w'
      = Commands.accesses w
        ++ [Commands.ListedDirectory directory;
            Commands.OfferedPick (map Commands.name files)] /\
    Commands.deepl_world w' = Commands.deepl_world w /\
    Commands.messages w' = Commands.messages w /\
    Commands.output w' = Commands.output w.
Proof.
  intros Hc Hfiles Hpick.
  destruct (getAvailableGlossaryFiles_run e w w0 files Hfiles)
    as (directory & fileNames & Hdir & _ & _ & ->).
  exists directory. split; [exact Hdir|].
  assert (Hrun : Commands.updateGlossary e w
                 = (accessed [Commands.ListedDirectory directory;
                              Commands.OfferedPick (map Commands.name files)] w, inr tt)).
  { unfold Commands.updateGlossary, Commands.quickPick.
    rewrite guarded_run, Hc. unfold mbind at 1, Commands.C_bind at 1. rewrite Hfiles.
    run_C. unfold accessed. simpl. rewrite <- app_assoc. simpl.
    destruct Hpick as [->| ->]; reflexivity. }
  rewrite Hrun. simpl. auto.
Qed.

Lemma updateGlossary_dismissed_witness :
  exists directory,
    glossary_directory (sample_commands_env (Some "glossaries") None) = Some directory /\
    let w' := (Commands.updateGlossary (sample_commands_env (Some "glossaries") None)
                 start_world).1 in
    (Commands.updateGlossary (sample_commands_env (Some "glossaries") None)
       start_world).2 = inr tt /\
    Commands.accesses w'
      = Commands.accesses start_world
        ++ [Commands.ListedDirectory directory;
            Commands.OfferedPick
              (map Commands.name
                 [file_of "en-de.csv" "en" "de"; file_of "fr-de.csv" "fr" "de";
                  file_of "en-fr.csv" "en" "fr"])] /\
    Commands.deepl_world w' = Commands.deepl_world start_world /\
    Commands.messages w' = Commands.messages start_world /\
    Commands.output w' = Commands.output start_world.
Proof.
  apply (updateGlossary_dismissed (sample_commands_env (Some "glossaries") None) start_world
           (accessed [Commands.ListedDirectory "/ws/glossaries"] start_world)
           [file_of "en-de.csv" "en" "de"; file_of "fr-de.csv" "fr" "de";
            file_of "en-fr.csv" "en" "fr"]).
  - reflexivity.
  - vm_compute. reflexivity.
  - left. reflexivity.
Defined.

End CommandsFacts.
(** ** The hover card *)

Module HoverFacts.

(** No white space character but single spaces: [after_space] says that
    the byte before was a space. *)
Fixpoint tidy_from (after_space : bool) (s : string) : bool :=
  match s with
  | EmptyString => true
  | String c rest =>
      match Hover.ws_length s with
      | 0 => tidy_from false rest
      | S _ => Ascii.eqb c " " && negb after_space && tidy_from true rest
      end
  end.

(** The text without its white space characters. *)
Fixpoint strip_go (skip : nat) (s : string) : string :=
  match s with
  | EmptyString => EmptyString
  | String c rest =>
      match skip with
      | S k => strip_go k rest
      | 0 =>
          match Hover.ws_length s with
          | 0 => String c (strip_go 0 rest)
          | S k => strip_go k rest
          end
      end
  end.

Definition strip (text : string) : string := strip_go 0 text.

Lemma is_space_2_space (b0 : ascii) : Hover.is_space_2 b0 " " = false.
Proof. unfold Hover.is_space_2. simpl. apply andb_false_r. Qed.

Lemma is_space_3_space_mid (b0 b2 : ascii) : Hover.is_space_3 b0 " " b2 = false.
Proof.
  unfold Hover.is_space_3. simpl.
  rewrite !andb_false_r. reflexivity.
Qed.

Lemma is_space_3_space_last (b0 b1 : ascii) : Hover.is_space_3 b0 b1 " " = false.
Proof.
  unfold Hover.is_space_3. simpl.
  rewrite !andb_false_r. reflexivity.
Qed.

Lemma ws_length_space (rest : string) : Hover.ws_length (String " " rest) = 1.
Proof. reflexivity. Qed.

Lemma ws_length_space_only (c : ascii) (rest : string) :
  Hover.ws_length (String c rest) = 1 <-> Hover.is_space_byte c = true.
Proof.
  unfold Hover.ws_length. destruct (Hover.is_space_byte c); [tauto|].
  destruct rest as [|b1 [|b2 rest2]]; try (split; discriminate).
  - destruct (Hover.is_space_2 c b1); split; discriminate.
  - destruct (Hover.is_space_2 c b1); [split; discriminate|].
    destruct (Hover.is_space_3 c b1 b2); split; discriminate.
Qed.

(** The head of the collapsed text. *)
Lemma collapse_go_head (c : ascii) (rest : string) :
  Hover.collapse_go false 0 (String c rest)
    = match Hover.ws_length (String c rest) with
      | 0 => String c (Hover.collapse_go false 0 rest)
      | S k => String " " (Hover.collapse_go true k rest)
      end.
Proof. reflexivity. Qed.

(** A byte that begins no white space character before the collapse
    begins none after it. *)
Lemma ws_length_collapse (c : ascii) (rest : string) :
  Hover.ws_length (String c rest) = 0 ->
  Hover.ws_length (String c (Hover.collapse_go false 0 rest)) = 0.
Proof.
  destruct rest as [|b1 rest1]; [intros H; exact H|].
  rewrite collapse_go_head.
  unfold Hover.ws_length at 1.
  destruct (Hover.is_space_byte c) eqn:Hc; [discriminate|].
  destruct (Hover.is_space_2 c b1) eqn:H2; [discriminate|]. intros H3.
  destruct (Hover.ws_length (String b1 rest1)) as [|k] eqn:Hk.
  - unfold Hover.ws_length. rewrite Hc, H2.
    destruct rest1 as [|b2 rest2]; [reflexivity|].
    rewrite collapse_go_head.
    destruct (Hover.ws_length (String b2 rest2)).
    + exact H3.
    + rewrite is_space_3_space_last. reflexivity.
  - unfold Hover.ws_length. rewrite Hc, is_space_2_space.
    destruct (Hover.collapse_go true k rest1); [reflexivity|].
    rewrite is_space_3_space_mid. reflexivity.
Qed.

Lemma collapse_go_tidy (s : string) (b : bool) (k : nat) :
  tidy_from b (Hover.collapse_go b k s) = true.
Proof.
  revert b k. induction s as [|c s IH]; intros b k; [reflexivity|].
  destruct k as [|k]; [|apply IH].
  cbn [Hover.collapse_go].
  destruct (Hover.ws_length (String c s)) as [|k] eqn:Hk.
  - cbn [tidy_from]. rewrite (ws_length_collapse c s Hk). apply IH.
  - destruct b; [apply IH|].
    cbn [tidy_from]. rewrite ws_length_space. simpl. apply IH.
Qed.

Lemma collapse_go_fixed (s : string) (b : bool) :
  tidy_from b s = true -> Hover.collapse_go b 0 s = s.
Proof.
  revert b. induction s as [|c s IH]; intros b; [reflexivity|].
  cbn [tidy_from Hover.collapse_go].
  destruct (Hover.ws_length (String c s)) as [|k] eqn:Hk.
  - intros Ht. rewrite (IH false Ht). reflexivity.
  - rewrite !andb_true_iff, negb_true_iff, Ascii.eqb_eq.
    intros [[-> ->] Ht]. rewrite ws_length_space in Hk. injection Hk as <-.
    rewrite (IH true Ht). reflexivity.
Qed.

Lemma tidy_from_suffix (pre suf : string) (b : bool) :
  tidy_from b (pre +:+ suf) = true -> exists b', tidy_from b' suf = true.
Proof.
  revert b. induction pre as [|c pre IH]; intros b.
  - intros H. exists b. exact H.
  - change (String c pre +:+ suf) with (String c (pre +:+ suf)).
    cbn [tidy_from].
    destruct (Hover.ws_length (String c (pre +:+ suf))).
    + apply IH.
    + rewrite !andb_true_iff. intros [_ Ht]. exact (IH true Ht).
Qed.

Lemma tidy_from_space (suf : string) (b : bool) :
  tidy_from b suf = true -> Hover.ws_length suf <> 0 ->
  exists rest, suf = String " " rest /\ Hover.ws_length rest = 0.
Proof.
  destruct suf as [|c rest]; [intros _ H; destruct H; reflexivity|].
  cbn [tidy_from].
  destruct (Hover.ws_length (String c rest)) as [|k]; [intros _ H; destruct H; reflexivity|].
  rewrite !andb_true_iff, Ascii.eqb_eq. intros [[-> _] Ht] _.
  exists rest. split; [reflexivity|].
  destruct rest as [|d rest']; [reflexivity|].
  cbn [tidy_from] in Ht.
  destruct (Hover.ws_length (String d rest')); [reflexivity|].
  rewrite andb_false_r in Ht. discriminate Ht.
Qed.

Lemma strip_collapse_go (s : string) (b : bool) (k : nat) :
  strip_go 0 (Hover.collapse_go b k s) = strip_go k s.
Proof.
  revert b k. induction s as [|c s IH]; intros b k; [reflexivity|].
  destruct k as [|k]; [|apply IH].
  cbn [Hover.collapse_go strip_go].
  destruct (Hover.ws_length (String c s)) as [|k] eqn:Hk.
  - cbn [strip_go]. rewrite (ws_length_collapse c s Hk), IH. reflexivity.
  - destruct b; [apply IH|].
    cbn [strip_go]. rewrite ws_length_space. apply IH.
Qed.

(** X19: [formatValue] hands the collapsed text to [escapeMarkdown]. In
    that text every white space character, of however many bytes in the
    original, is a single space that no white space follows; what is not
    white space is kept as it was and in its order; collapsing again
    changes nothing, and a text that is already so is handed on
    unchanged. *)
Theorem collapse_single_spaces (escapeMarkdown : string -> string) (text : string) :
  Hover.formatValue escapeMarkdown text = escapeMarkdown (Hover.collapse text) /\
  (forall pre suf, Hover.collapse text = pre +:+ suf -> Hover.ws_length suf <> 0 ->
     exists rest, suf = String " " rest /\ Hover.ws_length rest = 0) /\
  strip (Hover.collapse text) = strip text /\
  Hover.collapse (Hover.collapse text) = Hover.collapse text /\
  (tidy_from false text = true -> Hover.collapse text = text).
Proof.
  pose proof (collapse_go_tidy text false 0) as Ht.
  split; [reflexivity|]. split; [|split; [|split]].
  - intros pre suf Hs Hws. unfold Hover.collapse in Hs. rewrite Hs in Ht.
    destruct (tidy_from_suffix pre suf false Ht) as [b' Hb'].
    exact (tidy_from_space suf b' Hb' Hws).
  - apply strip_collapse_go.
  - apply collapse_go_fixed. exact Ht.
  - apply collapse_go_fixed.
Qed.

(** U+00A0 and U+2003 in their bytes. *)
Definition no_break_space : string :=
  String (ascii_of_nat 194) (String (ascii_of_nat 160) "").

Definition em_space : string :=
  String (ascii_of_nat 226) (String (ascii_of_nat 128) (String (ascii_of_nat 131) "")).

(** White space of one, two and three bytes is collapsed; a letter whose
    second byte is A0 is kept. *)
Example collapse_example :
  Hover.collapse ("  two" +:+ Hover.newline +:+ "  lines ") = " two lines " /\
  Hover.collapse ("a" +:+ no_break_space +:+ " " +:+ em_space +:+ "b" +:+ em_space +:+ "c")
    = "a b c" /\
  Hover.collapse "voilà" = "voilà" /\
  String.get 4 "voilà" = Some (ascii_of_nat 195) /\
  String.get 5 "voilà" = Some (ascii_of_nat 160).
Proof. vm_compute. repeat split. Qed.

Section Collaborators.

Variable t : string -> string.
Variable command_id : Hover.Commands -> string.
Variable encodeArgs : Hover.CommandArgs -> string.
Variable reviewEnabled preferEditor : bool.
Variable isTranslatable isEditable isOpenable : LocaleRecord -> bool.

Local Abbreviation commands_of :=
  (Hover.getAvaliableCommands t command_id encodeArgs reviewEnabled preferEditor
     isTranslatable isEditable isOpenable).



End Collaborators.

Section Table.

Variable escapeMarkdown : string -> string.
Variable decorateLocale : string -> string.
Variable t : string -> string.
Variable command_id : Hover.Commands -> string.
Variable encodeArgs : Hover.CommandArgs -> string.
Variable reviewEnabled preferEditor : bool.
Variable isTranslatable isEditable isOpenable : LocaleRecord -> bool.
Variable isLocaleRecord : LocaleRecord -> bool.
Variable getValueByKey : option string -> string -> Z -> option string.

Local Abbreviation table :=
  (Hover.createTable escapeMarkdown decorateLocale t command_id encodeArgs
     reviewEnabled preferEditor isTranslatable isEditable isOpenable isLocaleRecord
     getValueByKey).

Local Abbreviation row_of :=
  (Hover.row escapeMarkdown decorateLocale t command_id encodeArgs
     reviewEnabled preferEditor isTranslatable isEditable isOpenable isLocaleRecord
     getValueByKey).

Lemma get_None (records : gmap string LocaleRecord) (locale : string) :
  Hover.get records locale = None
  <-> records !! locale = None /\ locale ∉ Hover.Object_prototype.
Proof.
  unfold Hover.get. destruct (records !! locale) as [record|].
  - split; [discriminate|intros [H _]; discriminate H].
  - destruct (bool_decide_reflect (locale ∈ Hover.Object_prototype)) as [Hin|Hout].
    + split; [discriminate|intros [_ H]; contradiction].
    + split; [intros _; split; [reflexivity|exact Hout]|reflexivity].
Qed.

Lemma rows_nil (visibleLocales : list string) (records : gmap string LocaleRecord)
    (f : Hover.Found -> string -> string) :
  flat_map (fun locale =>
              match Hover.get records locale with
              | None => []
              | Some record => [f record locale]
              end) visibleLocales = []
  <-> forall locale, locale ∈ visibleLocales -> Hover.get records locale = None.
Proof.
  induction visibleLocales as [|l ls IH]; simpl.
  - split; [intros _ l Hl; inversion Hl|reflexivity].
  - destruct (Hover.get records l) as [r|] eqn:Hl; simpl.
    + split; [discriminate|]. intros H. rewrite (H l) in Hl by left. discriminate Hl.
    + rewrite IH. split.
      * intros H l' Hl'. apply elem_of_cons in Hl' as [->|Hl']; [exact Hl|apply H, Hl'].
      * intros H l' Hl'. apply H. right. exact Hl'.
Qed.

(** X21: [createTable] returns the empty string exactly when
    [records[locale]] finds nothing for every visible locale: the object
    has no record of that name and inherits nothing under it. Otherwise
    the table opens with the two header lines and closes with the empty
    line of cells. A visible locale that names a property of
    [Object.prototype] gets a row also from an object without records:
    the value is asked for without a keypath, and the row has no
    commands. *)
Theorem createTable_empty (visibleLocales : list string)
    (records : gmap string LocaleRecord) (maxLength keyIndex : option Z) :
  (table visibleLocales records maxLength keyIndex = ""
   <-> forall locale, locale ∈ visibleLocales ->
         records !! locale = None /\ locale ∉ Hover.Object_prototype) /\
  (table visibleLocales records maxLength keyIndex = "" \/
   exists rows,
     table visibleLocales records maxLength keyIndex =
       "| | | | | |" +:+ Hover.newline +:+ "|---|---:|---|---|---:|" +:+ Hover.newline
       +:+ rows +:+ Hover.newline +:+ "| | | | | |") /\
  (forall locale, locale ∈ Hover.Object_prototype -> records !! locale = None ->
     table [locale] records maxLength keyIndex =
       "| | | | | |" +:+ Hover.newline +:+ "|---|---:|---|---|---:|" +:+ Hover.newline
       +:+ ("| | **" +:+ decorateLocale locale +:+ "** | | "
            +:+ Hover.formatValue escapeMarkdown
                  (Js.or_string (getValueByKey None locale (Js.param 0%Z maxLength)) "-")
            +:+ " |  |")
       +:+ Hover.newline +:+ "| | | | | |").
Proof.
  split; [|split].
  - unfold Hover.createTable.
    transitivity (forall locale, locale ∈ visibleLocales -> Hover.get records locale = None).
    2: { split; intros H locale Hin; apply get_None, H, Hin. }
    rewrite <- (rows_nil visibleLocales records
                  (fun record locale => row_of record locale (Js.param 0%Z maxLength) keyIndex)).
    destruct (flat_map _ visibleLocales) as [|r rows] eqn:Hrows.
    + simpl. split; reflexivity.
    + assert (Hin : r ∈ flat_map
                      (fun locale =>
                         match Hover.get records locale with
                         | None => []
                         | Some record =>
                             [row_of record locale (Js.param 0%Z maxLength) keyIndex]
                         end) visibleLocales) by (rewrite Hrows; left).
      apply list_elem_of_In, in_flat_map in Hin as (l & _ & Hl).
      destruct (Hover.get records l) as [record|]; [|destruct Hl].
      destruct Hl as [<-|[]].
      assert (Htruthy : Js.truthy_string
                          (Hover.join_with Hover.newline
                             (row_of record l (Js.param 0%Z maxLength) keyIndex :: rows))
                        = true).
      { destruct rows; reflexivity. }
      rewrite Htruthy. simpl. split; discriminate.
  - unfold Hover.createTable.
    destruct (Js.truthy_string _); simpl; [right; eexists; reflexivity|left; reflexivity].
  - intros locale Hin Hnone. unfold Hover.createTable, Hover.get. simpl.
    rewrite Hnone, bool_decide_true by exact Hin. reflexivity.
Qed.

End Table.

(** A table for the locale [constructor] from an object without records. *)
Example createTable_constructor :
  Hover.createTable (fun s => s) (fun s => s) (fun s => s) (fun _ => "") (fun _ => "")
    false false (fun _ => false) (fun _ => false) (fun _ => false) (fun _ => false)
    (fun _ _ _ => None) ["constructor"] ∅ None None
  = "| | | | | |" +:+ Hover.newline +:+ "|---|---:|---|---|---:|" +:+ Hover.newline
    +:+ "| | **constructor** | | - |  |" +:+ Hover.newline +:+ "| | | | | |".
Proof. vm_compute. reflexivity. Qed.

End HoverFacts.
